(** * Asteroids game framework: the main loop, scenes, intervals and effect actors

    A shallow embedding of [Game.Main.prototype.frame], [Game.Scene],
    [Game.Interval] and [GameHandler] (the game class library) and of
    [Game.EffectActor] (scripts/Actor.js), with the properties of the
    frame scheduler and of the scene state machine.

    Conventions of the embedding.
    - [Date.now()] yields integer milliseconds: time stamps are [Z].
    - The other JavaScript numbers ([FPSMS], [frameMultipler], effect
      values) are exact rationals [Q]: rounding of doubles, infinities
      and NaN are outside the model. [effectValueDouble] is
      [effectValue] on doubles, as the engine computes it; there rounding
      matters.
    - [~~x] is truncation toward zero followed by the 32-bit wrap.
    - Objects that the loop mutates and shares (the [Interval] of a scene,
      the 2D context) live in a store; a scene refers to its interval by
      reference, so two scenes may share one interval.
    - The overridable methods ([isComplete], [isGameOver], the render hooks
      and the interval renderer) are fields holding functions on the store;
      a render hook either returns or throws, and keeps what it wrote either
      way; the two predicates only read. [onInitScene] is the method of the
      base class. Hooks do not write the fields owned by the loop itself
      ([sceneIndex], [currentScene], the [GameHandler] counters), and the
      canvas exists ([GameHandler.init] has run).
    - Every call the frame makes is appended to a log, in call order. *)

From Stdlib Require Import PrimFloat.
From Stdlib Require Import ZArith QArith Lia Lqa List String.
From stdpp Require Import base option gmap.
Import ListNotations.

Local Open Scope Z_scope.

(** ** JavaScript numbers *)

(** ToInt32: wrap into the signed 32-bit range. *)
Definition to_int32 (z : Z) : Z := (z + 2 ^ 31) mod 2 ^ 32 - 2 ^ 31.

(** Truncation of a rational toward zero. *)
Definition Qtrunc (q : Q) : Z := Z.quot (Qnum q) (Zpos (Qden q)).

(** The idiom [~~x]. *)
Definition dtilde (q : Q) : Z := to_int32 (Qtrunc q).

(** ** GameHandler *)

Record GameHandlerT := mkGameHandler {
  paused : bool;
  frameCount : Z;
  frameMultipler : Q;
  frameStart : Z;
  maxfps : Z
}.

(** Ideal FPS constant, [1000/60]. *)
Definition FPSMS : Q := (1000 / 60)%Q.

(** The initial values of the singleton. *)
Definition GameHandler0 : GameHandlerT :=
  {| paused := false; frameCount := 0; frameMultipler := 1%Q;
     frameStart := 0; maxfps := 0 |}.

(** ** Exceptions and outcomes *)

Inductive missing := JSundefined | JSnull.

(** What a frame can throw: the TypeError of a property access on
    [undefined] or [null], or whatever a hook throws. The code itself has
    no [throw] statement. *)
Inductive exn :=
| TypeError (v : missing) (property : string)
| HookError (msg : string).

Inductive outcome (S A : Type) :=
| Ret (a : A) (s : S)
| Raise (e : exn) (s : S).
Arguments Ret {S A} a s.
Arguments Raise {S A} e s.

Definition final {S A} (o : outcome S A) : S :=
  match o with Ret _ s => s | Raise _ s => s end.

Definition returned {S A} (o : outcome S A) : bool :=
  match o with Ret _ _ => true | Raise _ _ => false end.

(** ** Intervals *)

(** The mutable fields of a [Game.Interval] object. *)
Record IntervalCell := mkCell { framecounter : Z; complete : bool }.

(** The defaults on [Game.Interval.prototype], read when an object has
    no field of its own. *)
Definition protoCell : IntervalCell := {| framecounter := 0; complete := false |}.

(** The log of calls. *)
Inductive Event :=
| EvInitScene (scene : nat)
| EvSave
| EvRestore
| EvBeforeRenderScene (scene : nat)
| EvRenderGame
| EvRenderScene (scene : nat)
| EvIntervalRenderer (scene : nat) (interval : nat)
| EvRequestAnimFrame (frameOffset : Z).

Section Engine.

(** The data of the concrete game and the drawing state of the canvas
    (transform, styles). *)
Variables (U D : Type).

(** The 2D context: its drawing state and the stack of saved states. *)
Record Canvas := mkCanvas { drawState : D; savedStates : list D }.

Record Store := mkStore {
  intervals : gmap nat IntervalCell;
  ctx : Canvas;
  world : U
}.

Definition Hook := Store -> outcome Store unit.

(** A [Game.Interval]: its identity and its constant fields. The renderer
    is called with the scene as [this]. *)
Record Interval := mkInterval {
  iref : nat;
  label : string;
  intervalRenderer : nat -> Hook
}.

Record Scene := mkScene {
  sid : nat;
  playable : bool;
  interval : option Interval;
  isComplete : Store -> bool;
  onBeforeRenderScene : Hook;
  onRenderScene : Hook
}.

Record Main := mkMain {
  scenes : list Scene;
  startScene : option Scene;
  endScene : option Scene;
  currentScene : option Scene;
  sceneIndex : Z;
  onRenderGame : Hook;
  isGameOver : Store -> bool
}.

Record State := mkState {
  GameHandler : GameHandlerT;
  game : Main;
  store : Store;
  log : list Event
}.

(** *** Field updates *)

Definition with_intervals (m : gmap nat IntervalCell) (st : Store) : Store :=
  {| intervals := m; ctx := ctx st; world := world st |}.
Definition with_ctx (c : Canvas) (st : Store) : Store :=
  {| intervals := intervals st; ctx := c; world := world st |}.

Definition with_sceneIndex (i : Z) (g : Main) : Main :=
  {| scenes := scenes g; startScene := startScene g; endScene := endScene g;
     currentScene := currentScene g; sceneIndex := i;
     onRenderGame := onRenderGame g; isGameOver := isGameOver g |}.
Definition with_currentScene (c : option Scene) (g : Main) : Main :=
  {| scenes := scenes g; startScene := startScene g; endScene := endScene g;
     currentScene := c; sceneIndex := sceneIndex g;
     onRenderGame := onRenderGame g; isGameOver := isGameOver g |}.

Definition with_GameHandler (h : GameHandlerT) (s : State) : State :=
  {| GameHandler := h; game := game s; store := store s; log := log s |}.
Definition with_game (g : Main) (s : State) : State :=
  {| GameHandler := GameHandler s; game := g; store := store s; log := log s |}.
Definition with_store (st : Store) (s : State) : State :=
  {| GameHandler := GameHandler s; game := game s; store := st; log := log s |}.
Definition with_log (l : list Event) (s : State) : State :=
  {| GameHandler := GameHandler s; game := game s; store := store s; log := l |}.

(** *** The monad of a frame: state and exceptions *)

Definition M (A : Type) := State -> outcome State A.

Definition ret {A} (a : A) : M A := fun s => Ret a s.
Definition bind {A B} (m : M A) (k : A -> M B) : M B :=
  fun s => match m s with
           | Ret a s' => k a s'
           | Raise e s' => Raise e s'
           end.
Definition raise {A} (e : exn) : M A := fun s => Raise e s.
Definition gets {A} (f : State -> A) : M A := fun s => Ret (f s) s.
Definition modify (f : State -> State) : M unit := fun s => Ret tt (f s).

Declare Scope frame_scope.
Delimit Scope frame_scope with frame.
Bind Scope frame_scope with M.
Notation "x <- m ;; k" := (bind m (fun x => k))
  (at level 100, m at next level, right associativity) : frame_scope.
Notation "m ;; k" := (bind m (fun _ => k))
  (at level 100, right associativity) : frame_scope.
Local Open Scope frame_scope.

(** *** State changes of the loop itself *)

Definition logged (e : Event) (s : State) : State :=
  with_log (log s ++ [e]) s.

(** [this.sceneIndex = i] *)
Definition withIndex (i : Z) (s : State) : State :=
  with_game (with_sceneIndex i (game s)) s.

(** [this.scenes[i]]: [undefined] outside the array. *)
Definition scenesAt (g : Main) (i : Z) : option Scene :=
  if i <? 0 then None else scenes g !! Z.to_nat i.

(** *** Game.Interval.prototype.reset and Game.Scene.prototype.onInitScene *)

Definition reset (i : Interval) (st : Store) : Store :=
  with_intervals
    (<[iref i := {| framecounter := 0; complete := false |}]> (intervals st)) st.

Definition onInitScene (sc : Scene) (st : Store) : Store :=
  match interval sc with
  | Some i => reset i st   (* reset interval flag *)
  | None => st
  end.

(** The state after the call [sc.onInitScene()]. *)
Definition entered (sc : Scene) (s : State) : State :=
  with_store (onInitScene sc (store s)) (logged (EvInitScene (sid sc)) s).

(** [interval.complete], through the prototype when the object has no
    field of its own. *)
Definition intervalComplete (i : Interval) (st : Store) : bool :=
  match intervals st !! iref i with
  | Some c => complete c
  | None => complete protoCell
  end.

(** [sc.interval === null || sc.interval.complete] *)
Definition intervalDone (sc : Scene) (st : Store) : bool :=
  match interval sc with
  | None => true
  | Some i => intervalComplete i st
  end.

(** [ctx.save()] pushes the drawing state. *)
Definition saved (s : State) : State :=
  let c := ctx (store s) in
  with_store
    (with_ctx {| drawState := drawState c;
                 savedStates := drawState c :: savedStates c |} (store s))
    (logged EvSave s).

(** [ctx.restore()] pops it; on an empty stack it does nothing. *)
Definition restored (s : State) : State :=
  let c := ctx (store s) in
  match savedStates c with
  | d :: rest =>
      with_store (with_ctx {| drawState := d; savedStates := rest |} (store s))
                 (logged EvRestore s)
  | [] => logged EvRestore s
  end.

(** [frameInterval] after [if (frameInterval === 0) frameInterval = 1]. *)
Definition frameIntervalOf (now last : Z) : Z :=
  let frameInterval := now - last in
  if frameInterval =? 0 then 1 else frameInterval.

(** The second argument of [requestAnimFrame]. *)
Definition frameOffsetOf (frameStart_ now : Z) : Z :=
  dtilde (FPSMS - inject_Z (now - frameStart_)).

(** Update global frame counter, frame multiplier and frame start. *)
Definition timed (frameStart_ : Z) (s : State) : State :=
  let h := GameHandler s in
  let count := frameCount h + 1 in
  let frameInterval := frameIntervalOf frameStart_ (frameStart h) in
  with_GameHandler
    {| paused := paused h;
       frameCount := count;
       frameMultipler := inject_Z frameInterval / FPSMS;
       frameStart := frameStart_;
       maxfps := if Z.rem count 16 =? 0
                 then dtilde (1000 / inject_Z frameInterval)
                 else maxfps h |} s.

(** *** Game.Main.prototype.frame *)

Definition emit (e : Event) : M unit := modify (logged e).

(** Calling an overridable method: the hook runs on the store; if it throws,
    the exception leaves the frame with what the hook had written. *)
Definition call (h : Hook) : M unit :=
  fun s => match h (store s) with
           | Ret _ st => Ret tt (with_store st s)
           | Raise e st => Raise e (with_store st s)
           end.

(** [o.onInitScene()] on a value that may be [undefined] or [null]. *)
Definition callInitScene (v : missing) (o : option Scene) : M Scene :=
  match o with
  | Some sc => modify (entered sc) ;; ret sc
  | None => raise (TypeError v "onInitScene")
  end.

(** The first statement of the scene transition: game init or game over. *)
Definition selectScene : M Scene :=
  this <- gets game ;;
  match currentScene this with
  | None =>
      (* set to scene zero (game init) *)
      modify (withIndex 0) ;;
      callInitScene JSundefined (scenesAt this 0)
  | Some cs =>
      over <- gets (fun s => isGameOver this (store s)) ;;
      if (over : bool) then
        modify (withIndex (-1)) ;;
        callInitScene JSnull (endScene this)
      else ret cs
  end.

(** The second statement: the move to the next scene. *)
Definition advanceScene (cs : Scene) : M Scene :=
  this <- gets game ;;
  adv <- gets (fun s => intervalDone cs (store s) && isComplete cs (store s)) ;;
  if (adv : bool) then
    idx <- gets (fun s => sceneIndex (game s) + 1) ;;
    modify (withIndex idx) ;;
    if idx <? Z.of_nat (length (scenes this)) then
      callInitScene JSundefined (scenesAt this idx)
    else
      modify (withIndex 0) ;;
      callInitScene JSundefined (scenesAt this 0)
  else ret cs.

(** Scene transition and current scene: the value of the local
    [currentScene] when the render pass starts. *)
Definition resolveScene : M Scene :=
  cs <- selectScene ;; advanceScene cs.

Definition renderNormal (cs : Scene) : M unit :=
  this <- gets game ;;
  emit (EvBeforeRenderScene (sid cs)) ;;
  call (onBeforeRenderScene cs) ;;
  emit EvRenderGame ;;
  call (onRenderGame this) ;;
  emit (EvRenderScene (sid cs)) ;;
  call (onRenderScene cs).

Definition renderInterval (cs : Scene) (i : Interval) : M unit :=
  this <- gets game ;;
  emit EvRenderGame ;;
  call (onRenderGame this) ;;
  emit (EvIntervalRenderer (sid cs) (iref i)) ;;
  call (intervalRenderer i (sid cs)).

(** The two branches of the render pass. *)
Definition renderScene (cs : Scene) : M unit :=
  match interval cs with
  | None => renderNormal cs
  | Some i =>
      c <- gets (fun s => intervalComplete i (store s)) ;;
      if (c : bool) then renderNormal cs else renderInterval cs i
  end.

(** Render the game and current scene. *)
Definition renderPass (cs : Scene) : M unit :=
  modify saved ;;
  renderScene cs ;;
  modify restored.

(** The end of a frame: current scene reference, counters, and the request
    for the next frame. [now] is [Date.now()] at that point. *)
Definition finished (frameStart_ now : Z) (cs : Scene) (s : State) : State :=
  let s1 := with_game (with_currentScene (Some cs) (game s)) s in
  let s2 := timed frameStart_ s1 in
  if paused (GameHandler s2) then s2
  else logged (EvRequestAnimFrame (frameOffsetOf frameStart_ now)) s2.

(** One step of the main loop. [now1] is the value of [Date.now()] on entry
    and [now2] its value when the frame offset is computed. *)
Definition frame (now1 now2 : Z) : M unit :=
  let frameStart_ := now1 in
  cs <- resolveScene ;;
  renderPass cs ;;
  modify (finished frameStart_ now2 cs).

(** *** The base classes: the methods on the prototypes *)

(** The empty methods ([onBeforeRenderScene], [onRenderScene],
    [onRenderGame]). *)
Definition emptyMethod : Hook := fun st => Ret tt st.

(** [new Game.Scene(playable, interval)] with nothing overridden:
    [isComplete] returns false. *)
Definition newScene (id : nat) (playable : bool) (interval : option Interval) : Scene :=
  {| sid := id; playable := playable; interval := interval;
     isComplete := fun _ => false;
     onBeforeRenderScene := emptyMethod;
     onRenderScene := emptyMethod |}.

(** [Game.Main.prototype]: no current scene, [sceneIndex] -1, [isGameOver]
    returns false. *)
Definition newMain (scenes : list Scene) (startScene endScene : option Scene) : Main :=
  {| scenes := scenes; startScene := startScene; endScene := endScene;
     currentScene := None; sceneIndex := -1;
     onRenderGame := emptyMethod;
     isGameOver := fun _ => false |}.

(** *** Runs *)

(** The completion test of a step that starts with a current scene and no
    game over: whether the step advances to the next scene. *)
Definition advances (s : State) : bool :=
  match currentScene (game s) with
  | Some cs =>
      negb (isGameOver (game s) (store s))
      && intervalDone cs (store s) && isComplete cs (store s)
  | None => false
  end.

(** Whether [isGameOver()] is called by the step and returns true. *)
Definition gameOverStep (s : State) : bool :=
  match currentScene (game s) with
  | Some _ => isGameOver (game s) (store s)
  | None => false
  end.

(** Consecutive steps, one per pair of clock readings; a step that throws
    ends the run. *)
Fixpoint run (ticks : list (Z * Z)) : M unit :=
  match ticks with
  | [] => ret tt
  | (now1, now2) :: rest => frame now1 now2 ;; run rest
  end.

(** Every step of the run satisfies [p] on entry and returns. *)
Fixpoint everyStep (p : State -> bool) (ticks : list (Z * Z)) (s : State) : bool :=
  match ticks with
  | [] => true
  | (now1, now2) :: rest =>
      p s && match frame now1 now2 s with
             | Ret _ s' => everyStep p rest s'
             | Raise _ _ => false
             end
  end.

(** The events a step adds to the log. *)
Definition stepLog (now1 now2 : Z) (s : State) : list Event :=
  drop (length (log s)) (log (final (frame now1 now2 s))).

Definition isInit (e : Event) : bool :=
  match e with EvInitScene _ => true | _ => false end.

End Engine.

Arguments mkCanvas {D} _ _.
Arguments drawState {D} _.
Arguments savedStates {D} _.
Arguments mkStore {U D} _ _ _.
Arguments intervals {U D} _.
Arguments ctx {U D} _.
Arguments world {U D} _.
Arguments mkInterval {U D} _ _ _.
Arguments iref {U D} _.
Arguments label {U D} _.
Arguments intervalRenderer {U D} _ _ _.
Arguments mkScene {U D} _ _ _ _ _ _.
Arguments sid {U D} _.
Arguments playable {U D} _.
Arguments interval {U D} _.
Arguments isComplete {U D} _ _.
Arguments onBeforeRenderScene {U D} _ _.
Arguments onRenderScene {U D} _ _.
Arguments mkMain {U D} _ _ _ _ _ _ _.
Arguments scenes {U D} _.
Arguments startScene {U D} _.
Arguments endScene {U D} _.
Arguments currentScene {U D} _.
Arguments sceneIndex {U D} _.
Arguments onRenderGame {U D} _ _.
Arguments isGameOver {U D} _ _.
Arguments mkState {U D} _ _ _ _.
Arguments GameHandler {U D} _.
Arguments game {U D} _.
Arguments store {U D} _.
Arguments log {U D} _.
Arguments with_intervals {U D} _ _.
Arguments with_ctx {U D} _ _.
Arguments with_sceneIndex {U D} _ _.
Arguments with_currentScene {U D} _ _.
Arguments with_GameHandler {U D} _ _.
Arguments with_game {U D} _ _.
Arguments with_store {U D} _ _.
Arguments with_log {U D} _ _.
Arguments ret {U D A} _ _.
Arguments bind {U D A B} _ _ _.
Arguments raise {U D A} _ _.
Arguments gets {U D A} _ _.
Arguments modify {U D} _ _.
Arguments emit {U D} _ _.
Arguments call {U D} _ _.
Arguments scenesAt {U D} _ _.
Arguments reset {U D} _ _.
Arguments onInitScene {U D} _ _.
Arguments callInitScene {U D} _ _ _.
Arguments logged {U D} _ _.
Arguments withIndex {U D} _ _.
Arguments entered {U D} _ _.
Arguments saved {U D} _.
Arguments restored {U D} _.
Arguments timed {U D} _ _.
Arguments finished {U D} _ _ _ _.
Arguments selectScene {U D} _.
Arguments advanceScene {U D} _ _.
Arguments renderScene {U D} _ _.
Arguments intervalComplete {U D} _ _.
Arguments intervalDone {U D} _ _.
Arguments resolveScene {U D} _.
Arguments renderNormal {U D} _ _.
Arguments renderInterval {U D} _ _ _.
Arguments renderPass {U D} _ _.
Arguments frame {U D} _ _ _.
Arguments emptyMethod {U D} _.
Arguments newScene {U D} _ _ _.
Arguments newMain {U D} _ _ _.
Arguments advances {U D} _.
Arguments gameOverStep {U D} _.
Arguments run {U D} _ _.
Arguments everyStep {U D} _ _ _.
Arguments stepLog {U D} _ _ _.

(** ** Game.EffectActor *)

Record EffectActor := mkEffectActor {
  lifespan : Q;       (* effect lifespan in ms *)
  effectStart : Z     (* [GameHandler.frameStart] at construction *)
}.

Definition Qltb (x y : Q) : bool := negb (Qle_bool y x).

(** Actor expiration test. *)
Definition expired (a : EffectActor) (h : GameHandlerT) : bool :=
  Qltb (lifespan a) (inject_Z (frameStart h - effectStart a)).

(** The value multiplied by the ratio of the remaining lifespan, read in
    exact arithmetic: what the method computes when no operation rounds.
    The computation as the engine runs it is [effectValueDouble] below. *)
Definition effectValue (a : EffectActor) (h : GameHandlerT) (val : Q) : Q :=
  let result :=
    (val - (val / lifespan a) * inject_Z (frameStart h - effectStart a))%Q in
  if Qltb result 0 then 0%Q
  else if Qltb val result then val
  else result.

(** The same computation on doubles, as the JavaScript engine runs it;
    [elapsed] is [GameHandler.frameStart - this.effectStart]. *)
Definition effectValueDouble (lifespan elapsed val : float) : float :=
  let result := (val - (val / lifespan) * elapsed)%float in
  if (result <? 0)%float then 0%float
  else if (val <? result)%float then val
  else result.

(** ** A small game to run the loop on

    The game data is a counter of the hooks that ran; the drawing state of
    the canvas is a number. *)

Module Demo.

Definition store0 : Store nat nat :=
  mkStore ∅ (mkCanvas 0%nat []) 0%nat.

(** A hook that marks the drawing state and counts itself. *)
Definition paint (mark : nat) : Hook nat nat :=
  fun st => Ret tt (mkStore (intervals st)
                            (mkCanvas mark (savedStates (ctx st)))
                            (S (world st))).


(** An interval renderer that counts its frames and completes on the
    [n]th. *)
Definition countdown (ref : nat) (n : Z) : nat -> Hook nat nat :=
  fun _ st =>
    let c := match intervals st !! ref with Some c => c | None => protoCell end in
    let k := framecounter c + 1 in
    Ret tt (with_intervals
              (<[ref := {| framecounter := k; complete := n <=? k |}]> (intervals st))
              st).

Definition banner (ref : nat) (n : Z) : Interval nat nat :=
  mkInterval ref "GET READY" (countdown ref n).

(** A scene whose [isComplete] returns [done]. *)
Definition scene (id : nat) (i : option (Interval nat nat)) (done : bool) : Scene nat nat :=
  mkScene id true i (fun _ => done) (paint 1) (paint 2).

Definition start (g : Main nat nat) (frameStart0 : Z) : State nat nat :=
  mkState {| paused := false; frameCount := 0; frameMultipler := 1%Q;
             frameStart := frameStart0; maxfps := 0 |}
          g store0 [].

(** Two plain scenes, the first complete at once. *)
Definition twoScenes : Main nat nat :=
  newMain [scene 0 None true; scene 1 None false] None None.

(** One scene behind an interval of two frames. *)
Definition gated : Main nat nat :=
  newMain [scene 0 (Some (banner 7 2)) false] None None.

(** No scene at all. *)
Definition noScenes : Main nat nat := newMain [] None None.

(** A game in play on [current], at scene index [idx]. *)
Definition playing (scs : list (Scene nat nat)) (endSc : option (Scene nat nat))
    (current : Scene nat nat) (idx : Z) (over : bool) : Main nat nat :=
  mkMain scs None endSc (Some current) idx emptyMethod (fun _ => over).


(** Three scenes in play that are complete as soon as they are asked. *)
Definition cycling : Main nat nat :=
  playing [scene 0 None true; scene 1 None true; scene 2 None true] None
          (scene 0 None true) 0 false.


(** A lost game whose end scene shows a banner that completes on its first
    frame. *)
Definition lostBanner : Main nat nat :=
  playing [scene 0 None false] (Some (scene 9 (Some (banner 7 1)) true))
          (scene 0 None false) 0 true.

(** A lost game without an end scene. *)
Definition lostNoEnd : Main nat nat :=
  playing [scene 0 None false] None (scene 0 None false) 0 true.

(** A game in play on a scene that is not complete. *)
Definition steady : Main nat nat :=
  playing [scene 0 None false] None (scene 0 None false) 0 false.

End Demo.

(** ** What a step logs *)

Section Logs.

Context {U D : Type}.

(** The calls of the normal render path, and of the interval path. *)
Definition normalLog (cs : Scene U D) : list Event :=
  [EvBeforeRenderScene (sid cs); EvRenderGame; EvRenderScene (sid cs)].

Definition intervalLog (cs : Scene U D) (i : Interval U D) : list Event :=
  [EvRenderGame; EvIntervalRenderer (sid cs) (iref i)].

(** The calls of the branch that the render pass takes for [cs]. *)
Definition renderLog (cs : Scene U D) (st : Store U D) : list Event :=
  match interval cs with
  | None => normalLog cs
  | Some i => if intervalComplete i st then normalLog cs else intervalLog cs i
  end.

(** The call of [onInitScene], when there is a scene to call it on. *)
Definition initLog (o : option (Scene U D)) : list Event :=
  match o with Some sc => [EvInitScene (sid sc)] | None => [] end.

Definition requestLog (isPaused : bool) (now1 now2 : Z) : list Event :=
  if isPaused then [] else [EvRequestAnimFrame (frameOffsetOf now1 now2)].

(** The calls of a step that activates the end scene [e] and renders its
    interval [i]. *)
Definition gameOverLog (e : Scene U D) (i : Interval U D) (isPaused : bool)
    (tick : Z * Z) : list Event :=
  EvInitScene (sid e) :: EvSave :: intervalLog e i
    ++ EvRestore :: requestLog isPaused (fst tick) (snd tick).

(** The fields of the loop that a scene transition or a render pass leaves
    alone: all but [sceneIndex], the store and the log. *)
Definition sameLoop (s s' : State U D) : Prop :=
  GameHandler s' = GameHandler s
  /\ scenes (game s') = scenes (game s)
  /\ startScene (game s') = startScene (game s)
  /\ endScene (game s') = endScene (game s)
  /\ currentScene (game s') = currentScene (game s)
  /\ onRenderGame (game s') = onRenderGame (game s)
  /\ isGameOver (game s') = isGameOver (game s).

End Logs.

Definition isNormalRender (e : Event) : bool :=
  match e with
  | EvBeforeRenderScene _ | EvRenderScene _ => true
  | _ => false
  end.

Definition isIntervalRender (e : Event) : bool :=
  match e with EvIntervalRenderer _ _ => true | _ => false end.

Definition isRender (e : Event) : bool :=
  match e with
  | EvBeforeRenderScene _ | EvRenderGame | EvRenderScene _
  | EvIntervalRenderer _ _ => true
  | _ => false
  end.


Definition isRequest (e : Event) : bool :=
  match e with EvRequestAnimFrame _ => true | _ => false end.

(** ** The rest of the game handler: start, pause and the keys *)

Section Driver.

Context {U D : Type}.

Local Notation "x <- m ;; k" := (bind m (fun x => k))
  (at level 100, m at next level, right associativity).
Local Notation "m ;; k" := (bind m (fun _ => k))
  (at level 100, right associativity).

Definition withFrameStart (t : Z) (h : GameHandlerT) : GameHandlerT :=
  {| paused := paused h; frameCount := frameCount h;
     frameMultipler := frameMultipler h; frameStart := t; maxfps := maxfps h |}.

Definition withPaused (b : bool) (h : GameHandlerT) : GameHandlerT :=
  {| paused := b; frameCount := frameCount h;
     frameMultipler := frameMultipler h; frameStart := frameStart h;
     maxfps := maxfps h |}.

(** [GameHandler.start(game)]. The argument is the game on the first call
    ([Some]); when the animation handler calls back it is a time stamp or
    nothing, not an instance of [Game.Main] ([None]). [now0] is
    [Date.now()] in the first-time branch. *)
Definition GameHandler_start (g : option (Main U D)) (now0 now1 now2 : Z)
    : M U D unit :=
  (match g with
   | Some m =>
       (* first time init *)
       modify (fun s =>
         with_GameHandler (withFrameStart now0 (GameHandler s)) (with_game m s))
   | None => ret tt
   end) ;;
  frame now1 now2.

(** [GameHandler.pause()]: game pause toggle method. *)
Definition GameHandler_pause (now0 now1 now2 : Z) : M U D unit :=
  isPaused <- gets (fun s => paused (GameHandler s)) ;;
  if (isPaused : bool) then
    modify (fun s =>
      with_GameHandler
        (withFrameStart now0 (withPaused false (GameHandler s))) s) ;;
    frame now1 now2
  else
    modify (fun s => with_GameHandler (withPaused true (GameHandler s)) s).

(** What reaches the game handler from outside: a callback of the animation
    handler, or a call of [pause()]. *)
Inductive Input :=
| Fire (now1 now2 : Z)
| Pause (now0 now1 now2 : Z).

Definition input (i : Input) : M U D unit :=
  match i with
  | Fire now1 now2 => GameHandler_start None 0 now1 now2
  | Pause now0 now1 now2 => GameHandler_pause now0 now1 now2
  end.

Fixpoint drive (ins : list Input) : M U D unit :=
  match ins with
  | [] => ret tt
  | i :: rest => input i ;; drive rest
  end.

(** The number of frames requested from the animation handler so far. *)
Definition requests (s : State U D) : nat :=
  length (List.filter isRequest (log s)).

(** The key methods of the scenes, [onKeyDownHandler] or [onKeyUpHandler]:
    the result is whether the key was handled. *)
Definition KeyMethod := Scene U D -> Z -> Store U D -> outcome (Store U D) bool.

(** [document.onkeydown] and [document.onkeyup] as [Game.Main] installs
    them. [event] is [None] for a null event, the key code then comes from
    [window.event]. The result is whether [preventDefault] and
    [stopPropagation] were called. *)
Definition onkey (property : string) (method : KeyMethod)
    (event : option Z) (windowKeyCode : Z) : M U D bool :=
  let keyCode := match event with None => windowKeyCode | Some k => k end in
  me <- gets game ;;
  if sceneIndex me =? -1 then ret false
  else
    match scenesAt me (sceneIndex me) with
    | None => raise (TypeError JSundefined property)
    | Some sc =>
        fun s =>
          match method sc keyCode (store s) with
          | Ret handled st =>
              Ret (handled && match event with Some _ => true | None => false end)
                  (with_store st s)
          | Raise e st => Raise e (with_store st s)
          end
    end.

Definition onkeydown := onkey "onKeyDownHandler".
Definition onkeyup := onkey "onKeyUpHandler".

(** The scene index and the current scene reference agree: the current
    scene is [scenes[sceneIndex]], or the end scene under index -1. *)
Definition coherent (s : State U D) : Prop :=
  match currentScene (game s) with
  | None => True
  | Some c =>
      if sceneIndex (game s) =? -1 then endScene (game s) = Some c
      else scenesAt (game s) (sceneIndex (game s)) = Some c
  end.

(** A hook that leaves the stack of saved drawing states as it found it,
    whether it returns or throws. *)
Definition keepsStack (h : Hook U D) : Prop :=
  forall st, savedStates (ctx (final (h st))) = savedStates (ctx st).

(** Whether the render pass of the step returns, once its scene
    transition has: no hook of the pass throws. *)
Definition rendersStep (s : State U D) : bool :=
  match resolveScene s with
  | Ret cs s1 => returned (renderPass cs s1)
  | Raise _ _ => true
  end.

(** Every state in which a step of the run starts satisfies [p]. Unlike
    [everyStep] this does not ask that the steps return. *)
Fixpoint everyEntry (p : State U D -> bool) (ticks : list (Z * Z))
    (s : State U D) : bool :=
  match ticks with
  | [] => true
  | (now1, now2) :: rest =>
      p s && everyEntry p rest (final (frame now1 now2 s))
  end.

(** The number of calls of [onInitScene] so far. *)
Definition inits (s : State U D) : nat :=
  length (List.filter isInit (log s)).

End Driver.

(** ** Game.Preloader *)

Module Preloader.

(** The fields of an image object that the preloader reads and writes: the
    url it was registered with and the source it loads from. *)
Record Img := mkImg { url : option string; src : option string }.

(** An image object without these fields. *)
Definition blank : Img := {| url := None; src := None |}.

(** The image objects live in a store and are named by reference: the
    preloader holds references, so an object registered twice is one
    object. [callback] is the registered function, named by a number.
    [called] is the list of the callbacks invoked so far, the latest last;
    what the callback does is outside the preloader. *)
Record t := mk {
  objects : gmap nat Img;
  images : list nat;
  callback : option nat;
  counter : Z;
  called : list nat
}.

(** [new Game.Preloader()], among the image objects [m] that exist. *)
Definition new (m : gmap nat Img) : t :=
  {| objects := m; images := []; callback := None; counter := 0; called := [] |}.

(** The object behind a reference. *)
Definition object (m : gmap nat Img) (img : nat) : Img :=
  match m !! img with Some o => o | None => blank end.

(** Add an image to the list of images to wait for: [img.url = url] on the
    object itself, then [this.images.push(img)]. *)
Definition addImage (img : nat) (u : string) (p : t) : t :=
  {| objects := <[img := {| url := Some u; src := src (object (objects p) img) |}]>
                  (objects p);
     images := images p ++ [img];
     callback := callback p; counter := counter p; called := called p |}.

(** [this.images[i].src = this.images[i].url] *)
Definition load (m : gmap nat Img) (img : nat) : gmap nat Img :=
  <[img := {| url := url (object m img); src := url (object m img) |}]> m.

(** Load the images and call the supplied function when ready. *)
Definition onLoadCallback (fn : nat) (p : t) : t :=
  {| objects := fold_left load (images p) (objects p);
     images := images p;
     callback := Some fn; counter := 0; called := called p |}.

(** The closure that [addImage] attaches to [img.onload]. It is the same
    for every image: it counts, and calls the callback when the count is
    the number of images. *)
Definition onload (p : t) : outcome t unit :=
  let c := counter p + 1 in
  let p' := {| objects := objects p; images := images p;
               callback := callback p; counter := c; called := called p |} in
  if c =? Z.of_nat (length (images p)) then
    match callback p with
    | Some fn =>
        Ret tt {| objects := objects p; images := images p;
                  callback := callback p; counter := c;
                  called := called p ++ [fn] |}
    | None => Raise (TypeError JSnull "call") p'
    end
  else Ret tt p'.

(** [k] load events in a row; a throwing one ends the sequence. *)
Fixpoint loads (k : nat) (p : t) : outcome t unit :=
  match k with
  | O => Ret tt p
  | S k' =>
      match onload p with
      | Ret _ p' => loads k' p'
      | Raise e p' => Raise e p'
      end
  end.

(** The url of the last registration of [img] among [regs], if any. *)
Fixpoint lastUrl (regs : list (nat * string)) (img : nat) : option string :=
  match regs with
  | [] => None
  | (i, u) :: rest =>
      match lastUrl rest img with
      | Some v => Some v
      | None => if Nat.eqb i img then Some u else None
      end
  end.

End Preloader.

(** ** The 2D context and the drawing helpers *)

Section Context2D.

Context {D : Type}.

(** [g.save()] and [g.restore()] on the context alone. *)
Definition ctx_save (g : Canvas D) : Canvas D :=
  {| drawState := drawState g; savedStates := drawState g :: savedStates g |}.

Definition ctx_restore (g : Canvas D) : Canvas D :=
  match savedStates g with
  | d :: rest => {| drawState := d; savedStates := rest |}
  | [] => g
  end.

Definition ctx_set (d : D) (g : Canvas D) : Canvas D :=
  {| drawState := d; savedStates := savedStates g |}.

End Context2D.

(** [GameHandler.init]: the play field, read from the canvas element. *)
Record Playfield := mkPlayfield {
  width : Q;
  halfwidth : Q;
  height : Q;
  halfheight : Q
}.

Definition GameHandler_init (canvasWidth canvasHeight : Q) : Playfield :=
  let width := canvasHeight in      (* this.width = this.canvas.height *)
  let height := canvasWidth in      (* this.height = this.canvas.width *)
  {| width := width; halfwidth := (width * (1 # 2))%Q;
     height := height; halfheight := (height * (1 # 2))%Q |}.

Module Text.

(** The part of the drawing state that the text helpers write. Colours
    and fonts are taken to be valid ones: the context ignores an
    assignment it cannot parse. *)
Record Style := mkStyle {
  strokeStyle : string;
  fillStyle : string;
  font : string
}.

(** The text drawn, with the style in force at the call. *)
Inductive Call :=
| StrokeText (txt : string) (x y : Q) (style : Style)
| FillText (txt : string) (x y : Q) (style : Style).

(** [if (col)]: an omitted colour and the empty string are false. *)
Definition truthy (col : option string) : option string :=
  match col with
  | Some EmptyString => None
  | Some c => Some c
  | None => None
  end.

(** The colour that a helper draws with: the given one when it is truthy,
    the one of the context otherwise. *)
Definition colourOr (col : option string) (current : string) : string :=
  match truthy col with Some c => c | None => current end.

Definition setStroke (col : option string) (g : Canvas Style) : Canvas Style :=
  match truthy col with
  | Some c =>
      ctx_set {| strokeStyle := c; fillStyle := fillStyle (drawState g);
                 font := font (drawState g) |} g
  | None => g
  end.

Definition setFill (col : option string) (g : Canvas Style) : Canvas Style :=
  match truthy col with
  | Some c =>
      ctx_set {| strokeStyle := strokeStyle (drawState g); fillStyle := c;
                 font := font (drawState g) |} g
  | None => g
  end.

Definition setFont (f : string) (g : Canvas Style) : Canvas Style :=
  ctx_set {| strokeStyle := strokeStyle (drawState g);
             fillStyle := fillStyle (drawState g); font := f |} g.

Section Helpers.

(** [g.measureText(txt).width], which depends on the font in force. *)
Variable measureText : Style -> string -> Q.

Definition drawText (g : Canvas Style) (txt f : string) (x y : Q)
    (col : option string) : Canvas Style * list Call :=
  let g := ctx_save g in
  let g := setStroke col g in
  let g := setFont f g in
  let calls := [StrokeText txt x y (drawState g)] in
  (ctx_restore g, calls).

Definition centerDrawText (field : Playfield) (g : Canvas Style)
    (txt f : string) (y : Q) (col : option string) : Canvas Style * list Call :=
  let g := ctx_save g in
  let g := setStroke col g in
  let g := setFont f g in
  let x := ((width field - measureText (drawState g) txt) / 2)%Q in
  let calls := [StrokeText txt x y (drawState g)] in
  (ctx_restore g, calls).

Definition fillText (g : Canvas Style) (txt f : string) (x y : Q)
    (col : option string) : Canvas Style * list Call :=
  let g := ctx_save g in
  let g := setFill col g in
  let g := setFont f g in
  let calls := [FillText txt x y (drawState g)] in
  (ctx_restore g, calls).

Definition centerFillText (field : Playfield) (g : Canvas Style)
    (txt f : string) (y : Q) (col : option string) : Canvas Style * list Call :=
  let g := ctx_save g in
  let g := setFill col g in
  let g := setFont f g in
  let x := ((width field - measureText (drawState g) txt) / 2)%Q in
  let calls := [FillText txt x y (drawState g)] in
  (ctx_restore g, calls).

End Helpers.

End Text.

(** ** Game.Util: sprites on the cyclic play field *)

Module Util.

Local Open Scope Q_scope.

(** A call [ctx.drawImage(image, sx, sy, sw, sh, dx, dy, dw, dh)]; the
    image is the same in every call of one rendering. *)
Record DrawImage := mkDraw { sx : Q; sy : Q; sw : Q; sh : Q;
                             dx : Q; dy : Q; dw : Q; dh : Q }.

Definition when {A} (b : bool) (l : list A) : list A := if b then l else [].

Definition renderImage (field : Playfield) (nx ny ns x y s : Q) : list DrawImage :=
  let W := width field in
  let H := height field in
  let draw a b := mkDraw nx ny ns ns a b s s in
  [draw x y]
  ++ when (Qltb x 0) [draw (W + x) y]
  ++ when (Qltb y 0) [draw x (H + y)]
  ++ when (Qltb x 0 && Qltb y 0) [draw (W + x) (H + y)]
  ++ when (Qltb W (x + s)) [draw (x - W) y]
  ++ when (Qltb H (y + s)) [draw x (y - H)]
  ++ when (Qltb W (x + s) && Qltb H (y + s)) [draw (x - W) (y - H)].

(** The transform of the context, as the list of the operations applied. *)
Inductive Transform :=
| Translate (tx ty : Q)
| Rotate (r : Q).

(** A call [ctx.drawImage(image, ox, oy)] with the transform in force. *)
Record RotatedDraw := mkRotated { transform : list Transform; ox : Q; oy : Q }.

Definition Ctx := Canvas (list Transform).

(** The local function [rf]. *)
Definition rf (w2 h2 r : Q) (tx ty : Q) (g : Ctx) : Ctx * list RotatedDraw :=
  let g := ctx_save g in
  let g := ctx_set (drawState g ++ [Translate tx ty]) g in
  let g := ctx_set (drawState g ++ [Rotate r]) g in
  let calls := [mkRotated (drawState g) (- w2) (- h2)] in
  (ctx_restore g, calls).

(** [rf.call(this, tx, ty)] under a condition, after the calls so far. *)
Definition rfWhen (b : bool) (w2 h2 r tx ty : Q)
    (acc : Ctx * list RotatedDraw) : Ctx * list RotatedDraw :=
  if b then
    let '(g, calls) := rf w2 h2 r tx ty (fst acc) in (g, snd acc ++ calls)
  else acc.

Definition renderImageRotated (field : Playfield) (g : Ctx) (x y w h r : Q)
    : Ctx * list RotatedDraw :=
  let W := width field in
  let H := height field in
  let w2 := w * (1 # 2) in
  let h2 := h * (1 # 2) in
  let acc := rf w2 h2 r x y g in
  let acc := rfWhen (Qltb (x - w2) 0) w2 h2 r (W + x) y acc in
  let acc := rfWhen (Qltb (y - h2) 0) w2 h2 r x (H + y) acc in
  let acc := rfWhen (Qltb (x - w2) 0 && Qltb (y - h2) 0) w2 h2 r (W + x) (H + y) acc in
  let acc := rfWhen (Qltb W (x - w2 + w)) w2 h2 r (x - W) y acc in
  let acc := rfWhen (Qltb H (y - h2 + h)) w2 h2 r x (y - H) acc in
  rfWhen (Qltb W (x - w2 + w) && Qltb H (y - h2 + h)) w2 h2 r (x - W) (y - H) acc.

(** Where a rotated call puts the centre of the image: the last
    translation of its transform. *)
Definition centre (c : RotatedDraw) : option (Q * Q) :=
  match rev (transform c) with
  | Rotate _ :: Translate tx ty :: _ => Some (tx, ty)
  | _ => None
  end.

End Util.

(** ** Game.Actor and Game.EnemyActor *)

Module Actor.

Section Vectors.

(** The vector class of the game (not part of these files). *)
Variable Vector : Type.

Record Actor := mkActor { position : Vector; vector : Vector }.

(** Actor expiration test of the base class. *)
Definition expired (a : Actor) : bool := false.

Record EnemyActor := mkEnemy {
  enemyPosition : Vector;
  enemyVector : Vector;
  alive : bool
}.

(** [new Game.EnemyActor(p, v)]: [alive] is true on the prototype. *)
Definition newEnemy (p v : Vector) : EnemyActor :=
  {| enemyPosition := p; enemyVector := v; alive := true |}.

Definition enemyExpired (a : EnemyActor) : bool := negb (alive a).

(** Enemy hit by player bullet: the result is whether it is destroyed. *)
Definition hit (force : Q) (a : EnemyActor) : bool * EnemyActor :=
  (true, {| enemyPosition := enemyPosition a; enemyVector := enemyVector a;
            alive := false |}).

End Vectors.

End Actor.

(** ** More of the small game: pause, keys, sprites and effects *)

Module DemoMore.

Import Demo.

(** The game handler after [count] frames, the last one started at
    [frameStart0]. *)
Definition startAt (g : Main nat nat) (count frameStart0 : Z) (isPaused : bool)
    : State nat nat :=
  mkState {| paused := isPaused; frameCount := count; frameMultipler := 1%Q;
             frameStart := frameStart0; maxfps := 0 |}
          g store0 [].

(** Scenes that handle the space bar and no other key. *)
Definition spaceOnly : Scene nat nat -> Z -> Store nat nat
                       -> outcome (Store nat nat) bool :=
  fun _ keyCode st => Ret (keyCode =? 32) st.

(** A play field of 640 by 480, taken as it is. *)
Definition field : Playfield :=
  {| width := 640; halfwidth := 320; height := 480; halfheight := 240 |}.

(** An effect of 100 ms that started at time 0, and the game handler at
    the frame start [t]. *)
Definition spark : EffectActor := {| lifespan := 100; effectStart := 0 |}.

Definition handlerAt (t : Z) : GameHandlerT :=
  {| paused := false; frameCount := 3; frameMultipler := 1%Q;
     frameStart := t; maxfps := 0 |}.

End DemoMore.

(** ** The pieces of a frame *)

Section FrameLemmas.

Context {U D : Type}.
Implicit Types (s : State U D) (cs sc : Scene U D) (h : Hook U D).

Lemma selectScene_init s :
  currentScene (game s) = None ->
  selectScene s = callInitScene JSundefined (scenesAt (game s) 0) (withIndex 0 s).
Proof.
  intros Hc. unfold selectScene, bind, gets, modify. now rewrite Hc.
Qed.

Lemma selectScene_over s c :
  currentScene (game s) = Some c ->
  isGameOver (game s) (store s) = true ->
  selectScene s = callInitScene JSnull (endScene (game s)) (withIndex (-1) s).
Proof.
  intros Hc Ho. unfold selectScene, bind, gets, modify. now rewrite Hc, Ho.
Qed.

Lemma selectScene_keep s c :
  currentScene (game s) = Some c ->
  isGameOver (game s) (store s) = false ->
  selectScene s = Ret c s.
Proof.
  intros Hc Ho. unfold selectScene, bind, gets, modify. now rewrite Hc, Ho.
Qed.

Lemma advanceScene_keep cs s :
  intervalDone cs (store s) && isComplete cs (store s) = false ->
  advanceScene cs s = Ret cs s.
Proof.
  intros Ha. unfold advanceScene, bind, gets. now rewrite Ha.
Qed.

Lemma advanceScene_next cs s :
  intervalDone cs (store s) && isComplete cs (store s) = true ->
  advanceScene cs s =
    let idx := sceneIndex (game s) + 1 in
    if idx <? Z.of_nat (length (scenes (game s))) then
      callInitScene JSundefined (scenesAt (game s) idx) (withIndex idx s)
    else
      callInitScene JSundefined (scenesAt (game s) 0) (withIndex 0 s).
Proof.
  intros Ha. unfold advanceScene, bind, gets, modify. rewrite Ha. cbn zeta.
  destruct (_ <? _); reflexivity.
Qed.

Lemma callInitScene_some v sc s :
  callInitScene v (Some sc) s = Ret sc (entered sc s).
Proof. reflexivity. Qed.

Lemma resolveScene_eq s :
  resolveScene s =
    match selectScene s with
    | Ret cs s1 => advanceScene cs s1
    | Raise e s1 => Raise e s1
    end.
Proof. reflexivity. Qed.

Lemma renderPass_eq cs s :
  renderPass cs s =
    match renderScene cs (saved s) with
    | Ret _ s2 => Ret tt (restored s2)
    | Raise e s2 => Raise e s2
    end.
Proof.
  unfold renderPass, bind, modify. destruct (renderScene _ _); reflexivity.
Qed.

Lemma frame_eq now1 now2 s :
  frame now1 now2 s =
    match resolveScene s with
    | Ret cs s1 =>
        match renderPass cs s1 with
        | Ret _ s2 => Ret tt (finished now1 now2 cs s2)
        | Raise e s2 => Raise e s2
        end
    | Raise e s1 => Raise e s1
    end.
Proof.
  unfold frame, bind, modify.
  destruct (resolveScene s); [destruct (renderPass _ _)|]; reflexivity.
Qed.

(** *** What the pieces leave alone *)

Lemma sameLoop_refl s : sameLoop s s.
Proof. repeat split. Qed.

Lemma sameLoop_trans s1 s2 s3 : sameLoop s1 s2 -> sameLoop s2 s3 -> sameLoop s1 s3.
Proof.
  unfold sameLoop. intros (?&?&?&?&?&?&?) (?&?&?&?&?&?&?).
  repeat split; congruence.
Qed.

Lemma callInitScene_sameLoop v o s :
  sameLoop s (final (callInitScene v o s)).
Proof. destruct o; repeat split. Qed.

Lemma selectScene_sameLoop s : sameLoop s (final (selectScene s)).
Proof.
  destruct (currentScene (game s)) as [c|] eqn:Hc.
  - destruct (isGameOver (game s) (store s)) eqn:Ho.
    + rewrite (selectScene_over s c Hc Ho).
      eapply sameLoop_trans; [|apply callInitScene_sameLoop]. repeat split.
    + rewrite (selectScene_keep s c Hc Ho). apply sameLoop_refl.
  - rewrite (selectScene_init s Hc).
    eapply sameLoop_trans; [|apply callInitScene_sameLoop]. repeat split.
Qed.

Lemma advanceScene_sameLoop cs s : sameLoop s (final (advanceScene cs s)).
Proof.
  destruct (intervalDone cs (store s) && isComplete cs (store s)) eqn:Ha.
  - rewrite (advanceScene_next cs s Ha). cbn zeta.
    destruct (_ <? _);
      (eapply sameLoop_trans; [|apply callInitScene_sameLoop]); repeat split.
  - rewrite (advanceScene_keep cs s Ha). apply sameLoop_refl.
Qed.

Lemma resolveScene_sameLoop s : sameLoop s (final (resolveScene s)).
Proof.
  rewrite resolveScene_eq.
  pose proof (selectScene_sameLoop s) as H1.
  destruct (selectScene s) as [cs s1|e s1]; cbn [final] in *; [|exact H1].
  eapply sameLoop_trans; [exact H1|apply advanceScene_sameLoop].
Qed.

(** *** The log of a render pass *)

Lemma renderNormal_shape cs s :
  exists st evs,
    final (renderNormal cs s) = mkState (GameHandler s) (game s) st (log s ++ evs)
    /\ evs `prefix_of` normalLog cs
    /\ In (EvBeforeRenderScene (sid cs)) evs
    /\ (returned (renderNormal cs s) = true -> evs = normalLog cs).
Proof.
  unfold renderNormal, normalLog, bind, gets, emit, modify, call, logged. cbn.
  destruct (onBeforeRenderScene cs (store s)) as [[] st1|e st1]; cbn.
  - destruct (onRenderGame (game s) st1) as [[] st2|e st2]; cbn.
    + destruct (onRenderScene cs st2) as [[] st3|e st3]; cbn;
        eexists _, [_; _; _]; rewrite <- !app_assoc; cbn;
        (split; [reflexivity|]); (split; [by exists []|]);
        (split; [by left|]); intros; try discriminate; reflexivity.
    + eexists _, [_; _]; rewrite <- !app_assoc; cbn.
      split; [reflexivity|]. split; [by eexists [_]|].
      split; [by left|discriminate].
  - eexists _, [_]. split; [reflexivity|]. split; [by eexists [_; _]|].
    split; [by left|discriminate].
Qed.

Lemma renderInterval_shape cs i s :
  exists st evs,
    final (renderInterval cs i s) = mkState (GameHandler s) (game s) st (log s ++ evs)
    /\ evs `prefix_of` intervalLog cs i
    /\ evs <> []
    /\ (returned (renderInterval cs i s) = true -> evs = intervalLog cs i).
Proof.
  unfold renderInterval, intervalLog, bind, gets, emit, modify, call, logged. cbn.
  destruct (onRenderGame (game s) (store s)) as [[] st1|e st1]; cbn.
  - destruct (intervalRenderer i (sid cs) st1) as [[] st2|e st2]; cbn;
      eexists _, [_; _]; rewrite <- !app_assoc; cbn;
      (split; [reflexivity|]); (split; [by exists []|]);
      (split; [discriminate|]); intros; try discriminate; reflexivity.
  - eexists _, [_]. split; [reflexivity|]. split; [by eexists [_]|].
    split; discriminate.
Qed.

Lemma renderScene_shape cs s :
  exists st evs,
    final (renderScene cs s) = mkState (GameHandler s) (game s) st (log s ++ evs)
    /\ evs `prefix_of` renderLog cs (store s)
    /\ evs <> []
    /\ (returned (renderScene cs s) = true -> evs = renderLog cs (store s)).
Proof.
  assert (Hn : forall (e : Event) l, In e l -> l <> []) by (intros e [|] ?; easy).
  unfold renderScene, renderLog.
  destruct (interval cs) as [i|].
  - unfold bind, gets. destruct (intervalComplete i (store s)).
    + destruct (renderNormal_shape cs s) as (st & evs & ? & ? & ? & ?). eauto 8.
    + apply renderInterval_shape.
  - destruct (renderNormal_shape cs s) as (st & evs & ? & ? & ? & ?). eauto 8.
Qed.

Lemma renderLog_saved cs s : renderLog cs (store (saved s)) = renderLog cs (store s).
Proof. reflexivity. Qed.

(** The log of a render pass: the save, the calls of one branch, and the
    restore when no call threw. *)
Lemma renderPass_shape cs s :
  exists st evs,
    final (renderPass cs s) =
      mkState (GameHandler s) (game s) st
              (log s ++ EvSave :: evs
                 ++ (if returned (renderPass cs s) then [EvRestore] else []))
    /\ evs `prefix_of` renderLog cs (store s)
    /\ evs <> []
    /\ (returned (renderPass cs s) = true -> evs = renderLog cs (store s)).
Proof.
  rewrite renderPass_eq.
  destruct (renderScene_shape cs (saved s)) as (st & evs & Hf & Hp & Hne & Hr).
  rewrite renderLog_saved in Hp, Hr.
  destruct (renderScene cs (saved s)) as [[] s2|e s2]; cbn [final returned] in *.
  - subst s2. unfold restored. cbn.
    destruct (savedStates (ctx st)); cbn; unfold logged; cbn;
      eexists _, evs; rewrite <- !app_assoc; cbn; auto.
  - subst s2. cbn. eexists _, evs. rewrite <- !app_assoc, app_nil_r. cbn.
    split; [reflexivity|]. split; [exact Hp|]. split; [exact Hne|discriminate].
Qed.

(** *** The rest of a frame after the scene transition *)

Lemma frame_raise now1 now2 s e s1 :
  resolveScene s = Raise e s1 -> frame now1 now2 s = Raise e s1.
Proof. intros H. now rewrite frame_eq, H. Qed.

Lemma finished_log now1 now2 cs s :
  log (finished now1 now2 cs s) =
    log s ++ requestLog (paused (GameHandler s)) now1 now2.
Proof.
  unfold finished, requestLog. cbn.
  destruct (paused (GameHandler s)); cbn; [now rewrite app_nil_r|reflexivity].
Qed.

Lemma finished_game now1 now2 cs s :
  game (finished now1 now2 cs s) = with_currentScene (Some cs) (game s).
Proof. unfold finished. cbn. destruct (paused (GameHandler s)); reflexivity. Qed.

Lemma finished_GameHandler now1 now2 cs s :
  GameHandler (finished now1 now2 cs s) = GameHandler (timed now1 s).
Proof.
  unfold finished, timed. cbn. destruct (paused (GameHandler s)); reflexivity.
Qed.

Lemma frame_shape now1 now2 s cs s1 :
  resolveScene s = Ret cs s1 ->
  let o := frame now1 now2 s in
  exists evs,
    log (final o) =
      log s1 ++ EvSave :: evs
        ++ (if returned o
            then EvRestore :: requestLog (paused (GameHandler s1)) now1 now2
            else [])
    /\ evs `prefix_of` renderLog cs (store s1)
    /\ evs <> []
    /\ (returned o = true -> evs = renderLog cs (store s1))
    /\ sceneIndex (game (final o)) = sceneIndex (game s1)
    /\ (returned o = true ->
        currentScene (game (final o)) = Some cs
        /\ GameHandler (final o) = GameHandler (timed now1 s1)).
Proof.
  intros Hr o. subst o. rewrite frame_eq, Hr.
  destruct (renderPass_shape cs s1) as (st & evs & Hf & Hp & Hne & He).
  destruct (renderPass cs s1) as [[] s2|e s2]; cbn [final returned] in *; subst s2.
  - exists evs. rewrite finished_log, finished_game, finished_GameHandler. cbn.
    rewrite <- !app_assoc. cbn. rewrite <- !app_assoc. cbn. auto 8.
  - exists evs. cbn. repeat split; auto; discriminate.
Qed.

Lemma frame_sceneIndex now1 now2 s :
  sceneIndex (game (final (frame now1 now2 s))) =
  sceneIndex (game (final (resolveScene s))).
Proof.
  destruct (resolveScene s) as [cs s1|e s1] eqn:Hr.
  - destruct (frame_shape now1 now2 s cs s1 Hr) as (? & ? & ? & ? & ? & H & ?).
    exact H.
  - now rewrite (frame_raise now1 now2 s e s1 Hr).
Qed.

(** A frame changes neither the scene list, nor the end scene, nor the
    methods of the game, nor the pause flag. *)
Lemma frame_static now1 now2 s :
  let s' := final (frame now1 now2 s) in
  scenes (game s') = scenes (game s)
  /\ endScene (game s') = endScene (game s)
  /\ isGameOver (game s') = isGameOver (game s)
  /\ onRenderGame (game s') = onRenderGame (game s)
  /\ paused (GameHandler s') = paused (GameHandler s).
Proof.
  cbn zeta. rewrite frame_eq.
  pose proof (resolveScene_sameLoop s) as (Hg & Hs & _ & He & _ & Hr & Ho).
  destruct (resolveScene s) as [cs s1|e s1]; cbn [final] in *.
  - destruct (renderPass_shape cs s1) as (st & evs & Hf & _).
    destruct (renderPass cs s1) as [[] s2|e s2]; cbn [final] in *; rewrite Hf.
    + rewrite finished_game, finished_GameHandler. cbn. rewrite Hg. auto.
    + cbn. rewrite Hg. auto.
  - rewrite Hg. auto.
Qed.

(** *** The log of the scene transition *)

Lemma callInitScene_log v o s :
  log (final (callInitScene v o s)) = log s ++ initLog o.
Proof. destruct o; cbn; [reflexivity|now rewrite app_nil_r]. Qed.

Lemma selectScene_log s :
  exists o : option (Scene U D),
    log (final (selectScene s)) = log s ++ initLog o.
Proof.
  destruct (currentScene (game s)) as [c|] eqn:Hc.
  - destruct (isGameOver (game s) (store s)) eqn:Ho.
    + rewrite (selectScene_over s c Hc Ho). eexists; rewrite callInitScene_log; reflexivity.
    + rewrite (selectScene_keep s c Hc Ho). exists None. cbn. now rewrite app_nil_r.
  - rewrite (selectScene_init s Hc). eexists; rewrite callInitScene_log; reflexivity.
Qed.

Lemma advanceScene_log cs s :
  exists o : option (Scene U D),
    log (final (advanceScene cs s)) = log s ++ initLog o.
Proof.
  destruct (intervalDone cs (store s) && isComplete cs (store s)) eqn:Ha.
  - rewrite (advanceScene_next cs s Ha). cbn zeta.
    destruct (_ <? _); eexists; rewrite callInitScene_log; reflexivity.
  - rewrite (advanceScene_keep cs s Ha). exists None. cbn. now rewrite app_nil_r.
Qed.

Lemma resolveScene_log s :
  exists o1 o2 : option (Scene U D),
    log (final (resolveScene s)) = log s ++ initLog o1 ++ initLog o2.
Proof.
  rewrite resolveScene_eq. destruct (selectScene_log s) as (o1 & H1).
  destruct (selectScene s) as [cs s1|e s1]; cbn [final] in *.
  - destruct (advanceScene_log cs s1) as (o2 & H2).
    exists o1, o2. now rewrite H2, H1, <- app_assoc.
  - exists o1, None. cbn. now rewrite app_nil_r.
Qed.

Lemma stepLog_app now1 now2 s evs :
  log (final (frame now1 now2 s)) = log s ++ evs -> stepLog now1 now2 s = evs.
Proof. intros H. unfold stepLog. rewrite H. apply drop_app_length. Qed.

(** The log of a whole step whose scene transition succeeds: at most two
    scene initialisations, the save, the calls of one render branch up to
    the first that throws, and when none throws the restore and the
    request. *)
Lemma stepLog_shape now1 now2 s cs s1 :
  resolveScene s = Ret cs s1 ->
  let o := frame now1 now2 s in
  exists (o1 o2 : option (Scene U D)) evs,
    stepLog now1 now2 s =
      initLog o1 ++ initLog o2 ++ EvSave :: evs
        ++ (if returned o
            then EvRestore :: requestLog (paused (GameHandler s)) now1 now2
            else [])
    /\ log s1 = log s ++ initLog o1 ++ initLog o2
    /\ evs `prefix_of` renderLog cs (store s1)
    /\ evs <> []
    /\ (returned o = true -> evs = renderLog cs (store s1)).
Proof.
  intros Hr o. subst o.
  pose proof (resolveScene_sameLoop s) as (Hg & _).
  destruct (resolveScene_log s) as (o1 & o2 & Hl).
  destruct (frame_shape now1 now2 s cs s1 Hr) as (evs & Hlog & Hpre & Hne & He & _).
  rewrite Hr in Hg, Hl. cbn [final] in Hg, Hl.
  exists o1, o2, evs. split; [|auto].
  apply stepLog_app. rewrite Hlog, Hl, Hg, <- !app_assoc. reflexivity.
Qed.

Lemma prefix_filter_nil (f : Event -> bool) (evs l : list Event) :
  List.filter f l = [] -> evs `prefix_of` l -> List.filter f evs = [].
Proof.
  intros Hn (k & ->). rewrite List.filter_app in Hn. now apply app_eq_nil in Hn.
Qed.

(** No call of a render branch is a scene initialisation or a request. *)
Lemma renderLog_prefix_filter (f : Event -> bool) cs (st : Store U D) evs :
  List.filter f (normalLog cs) = [] ->
  (forall i, List.filter f (intervalLog cs i) = []) ->
  evs `prefix_of` renderLog cs st ->
  List.filter f evs = [].
Proof.
  intros Hn Hi (k & Hk).
  assert (H : List.filter f (evs ++ k) = []).
  { rewrite <- Hk. unfold renderLog.
    destruct (interval cs); [destruct (intervalComplete _ _)|]; auto. }
  rewrite List.filter_app in H. now apply app_eq_nil in H.
Qed.

End FrameLemmas.

(** ** Arithmetic of the timing code *)

Lemma FPSMS_ratio_pos z : 0 < z -> (0 < inject_Z z / FPSMS)%Q.
Proof.
  intros. unfold Qdiv. change (/ FPSMS)%Q with (60 # 1000)%Q.
  unfold Qlt, Qmult, inject_Z. cbn [Qnum Qden]. lia.
Qed.

Lemma FPSMS_ratio_neg z : z < 0 -> (inject_Z z / FPSMS < 0)%Q.
Proof.
  intros. unfold Qdiv. change (/ FPSMS)%Q with (60 # 1000)%Q.
  unfold Qlt, Qmult, inject_Z. cbn [Qnum Qden]. lia.
Qed.

Lemma to_int32_small z : - 2 ^ 31 <= z < 2 ^ 31 -> to_int32 z = z.
Proof. unfold to_int32. intros. rewrite Z.mod_small; lia. Qed.

Lemma Qtrunc_offset a b :
  Qtrunc (FPSMS - inject_Z (b - a)) = (1000 - 60 * (b - a)) ÷ 60.
Proof.
  change FPSMS with (1000 # 60)%Q.
  unfold Qtrunc, Qminus, Qplus, Qopp, inject_Z.
  cbn [Qnum Qden]. change (Z.pos (60 * 1)) with 60. f_equal. lia.
Qed.

Lemma quot_offset e :
  - 2 ^ 31 + 17 <= e <= 2 ^ 31 ->
  - 2 ^ 31 <= (1000 - 60 * e) ÷ 60 < 2 ^ 31
  /\ (0 <= (1000 - 60 * e) ÷ 60 <-> e <= 17).
Proof.
  intros.
  pose proof (Z.quot_rem' (1000 - 60 * e) 60).
  pose proof (Z.rem_bound_pos (1000 - 60 * e) 60).
  pose proof (Z.rem_bound_pos_neg (1000 - 60 * e) 60).
  lia.
Qed.

Lemma Qltb_true x y : Qltb x y = true <-> (x < y)%Q.
Proof.
  unfold Qltb. rewrite Bool.negb_true_iff. split.
  - intros H. apply Qnot_le_lt. intros H1. apply Qle_bool_iff in H1. congruence.
  - intros H. destruct (Qle_bool y x) eqn:E; auto.
    apply Qle_bool_iff in E. apply Qlt_not_le in H. tauto.
Qed.

Lemma Qltb_false x y : Qltb x y = false <-> (y <= x)%Q.
Proof.
  unfold Qltb. rewrite Bool.negb_false_iff. apply Qle_bool_iff.
Qed.

(** ** Frame timing *)

Section Timing.

Context {U D : Type}.
Implicit Types (s : State U D).

Lemma frame_GameHandler now1 now2 s :
  returned (frame now1 now2 s) = true ->
  GameHandler (final (frame now1 now2 s)) = GameHandler (timed now1 s).
Proof.
  intros Hret.
  pose proof (resolveScene_sameLoop s) as (Hg & _).
  destruct (resolveScene s) as [cs s1|e s1] eqn:Hr.
  - destruct (frame_shape now1 now2 s cs s1 Hr) as (_ & _ & _ & _ & _ & _ & H).
    destruct (H Hret) as (_ & ->). cbn [final] in Hg.
    unfold timed. cbn. now rewrite Hg.
  - rewrite (frame_raise now1 now2 s e s1 Hr) in Hret. discriminate.
Qed.

(** C1, as the code has it. After a step that completes, [frameMultipler]
    is the observed interval over the ideal interval [1000/60], where only
    an observed interval of exactly zero is replaced by 1. For every
    observed interval that is not negative this is
    [max(observedInterval, 1) / idealInterval], which is strictly positive;
    a negative observed interval is not clamped and gives a negative
    multiplier. *)
Theorem frame_multiplier now1 now2 s :
  returned (frame now1 now2 s) = true ->
  let observed := now1 - frameStart (GameHandler s) in
  let m := frameMultipler (GameHandler (final (frame now1 now2 s))) in
  m = (inject_Z (if observed =? 0 then 1 else observed) / FPSMS)%Q
  /\ (0 <= observed ->
      m = (inject_Z (Z.max observed 1) / FPSMS)%Q /\ (0 < m)%Q)
  /\ (observed < 0 -> (m < 0)%Q).
Proof.
  intros Hret observed m. subst m.
  rewrite (frame_GameHandler now1 now2 s Hret).
  unfold timed, frameIntervalOf. cbn. fold observed.
  split; [reflexivity|]. split.
  - intros Hpos. destruct (Z.eqb_spec observed 0) as [->|Hne].
    + split; [reflexivity|]. now apply FPSMS_ratio_pos.
    + replace (Z.max observed 1) with observed by lia.
      split; [reflexivity|]. apply FPSMS_ratio_pos. lia.
  - intros Hneg. destruct (Z.eqb_spec observed 0); [lia|].
    now apply FPSMS_ratio_neg.
Qed.

(** C7, as the code has it. A step that completes while not paused makes
    one request for the next frame, as its last call, and passes
    [~~(FPSMS - elapsed)]: the ideal interval minus the time the step took,
    truncated toward zero. The value is not clamped: for a step time in the
    32-bit range it is non-negative exactly when the step took at most
    17 ms, and negative on slower frames. *)
Theorem frame_offset now1 now2 s :
  returned (frame now1 now2 s) = true ->
  paused (GameHandler s) = false ->
  - 2 ^ 31 + 17 <= now2 - now1 <= 2 ^ 31 ->
  (exists evs,
      stepLog now1 now2 s = evs ++ [EvRequestAnimFrame (frameOffsetOf now1 now2)]
      /\ List.filter isRequest evs = [])
  /\ frameOffsetOf now1 now2 = (1000 - 60 * (now2 - now1)) ÷ 60
  /\ (0 <= frameOffsetOf now1 now2 <-> now2 - now1 <= 17).
Proof.
  intros Hret Hp Hb.
  assert (Hoff : frameOffsetOf now1 now2 = (1000 - 60 * (now2 - now1)) ÷ 60).
  { unfold frameOffsetOf, dtilde. rewrite Qtrunc_offset.
    apply to_int32_small. now apply quot_offset. }
  split; [|split; [exact Hoff|rewrite Hoff; now apply quot_offset]].
  destruct (resolveScene s) as [cs s1|e s1] eqn:Hr.
  - destruct (stepLog_shape now1 now2 s cs s1 Hr)
      as (o1 & o2 & evs & Hlog & _ & Hpre & _).
    rewrite Hret, Hp in Hlog. cbn in Hlog.
    exists (initLog o1 ++ initLog o2 ++ EvSave :: evs ++ [EvRestore]). split.
    + rewrite Hlog, <- !app_assoc. cbn. now rewrite <- !app_assoc.
    + assert (Hn : List.filter isRequest evs = []).
      { eapply renderLog_prefix_filter; [| |exact Hpre]; reflexivity. }
      rewrite !List.filter_app. cbn. rewrite List.filter_app, Hn.
      now destruct o1, o2.
  - rewrite (frame_raise now1 now2 s e s1 Hr) in Hret. discriminate.
Qed.

End Timing.

(** ** Effect actors *)

(** C8. [effectValue] on doubles, as the engine computes it, against
    the method's own description, "the value multiplied by the ratio of
    the remaining lifespans". At the end of a lifespan of 49 ms the ratio
    is 0, and the value 1 yields 2^-53 and not 0: [(1 / 49) * 49] rounds
    below 1, and the crop only catches results under 0. At the very start
    of an effect of 100 ms the ratio is 1, and the value -10 yields 0 and
    not -10: the crop tests [result < 0] first. *)
Theorem effectValue_double_failing :
  effectValueDouble 49 49 1 = 0x1p-53%float
  /\ effectValueDouble 100 0 (-10) = 0%float.
Proof. split; vm_compute; reflexivity. Qed.

(** ** The scene state machine *)

Section SceneMachine.

Context {U D : Type}.
Implicit Types (s : State U D) (cs c e : Scene U D) (i : Interval U D).

(** [onInitScene] leaves the interval of the scene freshly reset. *)
Lemma onInitScene_resets e i (st : Store U D) :
  interval e = Some i ->
  intervals (onInitScene e st) !! iref i
    = Some {| framecounter := 0; complete := false |}.
Proof.
  intros Hi. unfold onInitScene, reset. rewrite Hi. cbn.
  apply lookup_insert_eq.
Qed.

Lemma intervalDone_entered e i (st : Store U D) :
  interval e = Some i -> intervalDone e (onInitScene e st) = false.
Proof.
  intros Hi. unfold intervalDone, intervalComplete. rewrite Hi.
  now rewrite (onInitScene_resets e i st Hi).
Qed.

(** C9, as the code has it. The frame has no check of its configuration.
    With an empty scene list the first step reads [scenes[0]], which is
    [undefined], and stops on the TypeError of calling [onInitScene] on it;
    on game over without an end scene it stops on the TypeError of calling
    [onInitScene] on [null]. In both cases [sceneIndex] is already written,
    and nothing is rendered, counted or scheduled. *)
Theorem frame_missing_scene now1 now2 s :
  (currentScene (game s) = None -> scenes (game s) = [] ->
   frame now1 now2 s
     = Raise (TypeError JSundefined "onInitScene") (withIndex 0 s))
  /\ (currentScene (game s) <> None ->
      isGameOver (game s) (store s) = true ->
      endScene (game s) = None ->
      frame now1 now2 s
        = Raise (TypeError JSnull "onInitScene") (withIndex (-1) s)).
Proof.
  split.
  - intros Hc Hs. apply frame_raise.
    rewrite resolveScene_eq, (selectScene_init s Hc).
    unfold scenesAt. now rewrite Hs.
  - intros Hc Ho He. destruct (currentScene (game s)) as [c|] eqn:Hcs; [|easy].
    apply frame_raise.
    now rewrite resolveScene_eq, (selectScene_over s c Hcs Ho), He.
Qed.

(** The scene index after the move to the next scene. *)
Lemma advanceScene_index cs s :
  intervalDone cs (store s) && isComplete cs (store s) = true ->
  sceneIndex (game (final (advanceScene cs s))) =
    (if sceneIndex (game s) + 1 <? Z.of_nat (length (scenes (game s)))
     then sceneIndex (game s) + 1 else 0).
Proof.
  intros Ha. rewrite (advanceScene_next cs s Ha). cbn zeta.
  destruct (_ <? _); destruct (scenesAt _ _); reflexivity.
Qed.


(** C2, as the code has it. The game-init branch and the game-over branch
    exclude each other, but the completion test is a statement of its own
    that runs after either of them, on the scene just activated. So a step
    calls [onInitScene] at most twice; with a current scene, no game over
    and a failing completion test the active scene and [sceneIndex] are
    kept; and on the first frame [scenes[0]] stays the active scene only if
    its interval is non-null or its [isComplete()] is false, otherwise the
    same step advances to [scenes[1]] (to [scenes[0]] again when there is
    one scene only). *)
Theorem scene_resolution now1 now2 s :
  let o := frame now1 now2 s in
  (length (List.filter isInit (stepLog now1 now2 s)) <= 2)%nat
  /\ (forall c,
        currentScene (game s) = Some c ->
        isGameOver (game s) (store s) = false ->
        intervalDone c (store s) && isComplete c (store s) = false ->
        List.filter isInit (stepLog now1 now2 s) = []
        /\ sceneIndex (game (final o)) = sceneIndex (game s)
        /\ (returned o = true -> currentScene (game (final o)) = Some c))
  /\ (forall c0,
        currentScene (game s) = None ->
        scenesAt (game s) 0 = Some c0 ->
        let st := onInitScene c0 (store s) in
        if intervalDone c0 st && isComplete c0 st
        then sceneIndex (game (final o)) =
               (if 1 <? Z.of_nat (length (scenes (game s))) then 1 else 0)
        else sceneIndex (game (final o)) = 0
             /\ (returned o = true -> currentScene (game (final o)) = Some c0)).
Proof.
  intros o. subst o. split; [|split].
  - destruct (resolveScene s) as [cs s1|x s1] eqn:Hr.
    + destruct (stepLog_shape now1 now2 s cs s1 Hr)
        as (o1 & o2 & evs & -> & _ & Hpre & _).
      assert (Hn : List.filter isInit evs = []).
      { eapply renderLog_prefix_filter; [| |exact Hpre]; reflexivity. }
      rewrite !List.filter_app. cbn. rewrite List.filter_app, Hn.
      destruct o1, o2, (returned (frame now1 now2 s)),
        (paused (GameHandler s)); cbn; lia.
    + destruct (resolveScene_log s) as (o1 & o2 & Hl).
      rewrite Hr in Hl. cbn [final] in Hl.
      rewrite (stepLog_app now1 now2 s (initLog o1 ++ initLog o2)).
      * destruct o1, o2; cbn; lia.
      * now rewrite (frame_raise now1 now2 s x s1 Hr).
  - intros c Hc Ho Ha.
    assert (Hr : resolveScene s = Ret c s)
      by now rewrite resolveScene_eq, (selectScene_keep s c Hc Ho),
                     (advanceScene_keep c s Ha).
    destruct (stepLog_shape now1 now2 s c s Hr)
      as (o1 & o2 & evs & -> & Hl & Hpre & _).
    destruct (frame_shape now1 now2 s c s Hr) as (_ & _ & _ & _ & _ & Hi & Hcur).
    split; [|split; [exact Hi|intros Hret; now destruct (Hcur Hret)]].
    assert (Hn : List.filter isInit evs = []).
    { eapply renderLog_prefix_filter; [| |exact Hpre]; reflexivity. }
    assert (Hnil : initLog o1 ++ initLog o2 = []).
    { rewrite <- (app_nil_r (log s)) in Hl at 1. now apply app_inv_head in Hl. }
    rewrite app_assoc, Hnil. cbn. rewrite List.filter_app, Hn.
    destruct (returned (frame now1 now2 s)), (paused (GameHandler s));
      reflexivity.
  - intros c0 Hc H0 st.
    pose proof (selectScene_init s Hc) as Hsel.
    rewrite H0, callInitScene_some in Hsel.
    set (s1 := entered c0 (withIndex 0 s)) in *.
    assert (Hres : resolveScene s = advanceScene c0 s1)
      by now rewrite resolveScene_eq, Hsel.
    change (store s1) with st in *.
    destruct (intervalDone c0 st && isComplete c0 st) eqn:Ha.
    + rewrite frame_sceneIndex, Hres.
      change st with (store s1) in Ha.
      rewrite (advanceScene_index c0 s1 Ha). reflexivity.
    + change st with (store s1) in Ha.
      rewrite (advanceScene_keep c0 s1 Ha) in Hres.
      destruct (frame_shape now1 now2 s c0 s1 Hres)
        as (_ & _ & _ & _ & _ & Hi & Hcur).
      split; [exact Hi|intros Hret; now destruct (Hcur Hret)].
Qed.

Lemma filter_nil_not_In (f : Event -> bool) (l : list Event) (x : Event) :
  List.filter f l = [] -> f x = true -> ~ In x l.
Proof.
  intros Hn Hf Hin.
  assert (H : In x (List.filter f l)) by (apply filter_In; auto).
  now rewrite Hn in H.
Qed.

Lemma renderLog_done cs (st : Store U D) :
  intervalDone cs st = true -> renderLog cs st = normalLog cs.
Proof.
  unfold intervalDone, renderLog. destruct (interval cs); [|reflexivity].
  now intros ->.
Qed.

Lemma renderLog_blocked cs (st : Store U D) :
  intervalDone cs st = false ->
  exists i, interval cs = Some i /\ renderLog cs st = intervalLog cs i.
Proof.
  unfold intervalDone, renderLog. destruct (interval cs) as [i|]; [|easy].
  intros ->. eauto.
Qed.

(** C3. For the scene that is active when the render pass starts: if its
    interval is non-null and not complete, the step never calls
    [onBeforeRenderScene] or [onRenderScene] and, when it completes, its
    render calls are the game render hook and the interval renderer;
    if the interval is null or complete, the step never calls an interval
    renderer, it calls [onBeforeRenderScene], and when it completes its
    render calls are [onBeforeRenderScene], the game render hook and
    [onRenderScene], in this order. *)
Theorem render_paths_exclusive now1 now2 s cs s1 :
  resolveScene s = Ret cs s1 ->
  let o := frame now1 now2 s in
  let evs := stepLog now1 now2 s in
  if intervalDone cs (store s1)
  then (forall sc ref, ~ In (EvIntervalRenderer sc ref) evs)
       /\ In (EvBeforeRenderScene (sid cs)) evs
       /\ (returned o = true -> List.filter isRender evs = normalLog cs)
  else (forall sc, ~ In (EvBeforeRenderScene sc) evs /\ ~ In (EvRenderScene sc) evs)
       /\ (returned o = true ->
           exists i, interval cs = Some i
                     /\ List.filter isRender evs = intervalLog cs i).
Proof.
  intros Hr o evs. subst o evs.
  destruct (stepLog_shape now1 now2 s cs s1 Hr)
    as (o1 & o2 & evs & -> & _ & Hpre & Hne & Hret).
  destruct (intervalDone cs (store s1)) eqn:Hd.
  - rewrite (renderLog_done cs _ Hd) in Hpre, Hret.
    assert (Hn : List.filter isIntervalRender evs = []).
    { eapply prefix_filter_nil; [|exact Hpre]. reflexivity. }
    split; [|split].
    + intros sc ref. apply (filter_nil_not_In isIntervalRender); [|reflexivity].
      rewrite !List.filter_app. cbn. rewrite List.filter_app, Hn.
      destruct o1, o2, (returned (frame now1 now2 s)),
        (paused (GameHandler s)); reflexivity.
    + rewrite !in_app_iff. right. right. right. rewrite in_app_iff. left.
      destruct Hpre as (k & Hk). destruct evs as [|x evs]; [easy|].
      injection Hk as <- _. now left.
    + intros Ht. rewrite Ht, (Hret Ht).
      destruct o1, o2, (paused (GameHandler s)); reflexivity.
  - destruct (renderLog_blocked cs _ Hd) as (i & Hi & Hlog).
    rewrite Hlog in Hpre, Hret.
    assert (Hn : List.filter isNormalRender evs = []).
    { eapply prefix_filter_nil; [|exact Hpre]. reflexivity. }
    assert (Hall : List.filter isNormalRender
              (initLog o1 ++ initLog o2 ++ EvSave :: evs
                 ++ (if returned (frame now1 now2 s)
                     then EvRestore
                          :: requestLog (paused (GameHandler s)) now1 now2
                     else [])) = []).
    { rewrite !List.filter_app. cbn. rewrite List.filter_app, Hn.
      destruct o1, o2, (returned (frame now1 now2 s)),
        (paused (GameHandler s)); reflexivity. }
    split.
    + intros sc.
      split; apply (filter_nil_not_In isNormalRender); auto.
    + intros Ht. exists i. split; [exact Hi|]. rewrite Ht, (Hret Ht).
      destruct o1, o2, (paused (GameHandler s)); reflexivity.
Qed.


(** *** Cyclic playback *)

(** An advancing step whose hooks do not throw: the scene transition
    succeeds, moves the index one further modulo the number of scenes,
    initialises the scene under the new index and makes it current. *)
Lemma advances_step now1 now2 s :
  advances s = true ->
  rendersStep s = true ->
  0 <= sceneIndex (game s) < Z.of_nat (length (scenes (game s))) ->
  let s' := final (frame now1 now2 s) in
  let k := (sceneIndex (game s) + 1) mod Z.of_nat (length (scenes (game s))) in
  returned (frame now1 now2 s) = true
  /\ sceneIndex (game s') = k
  /\ scenes (game s') = scenes (game s)
  /\ (exists c, currentScene (game s') = Some c /\ scenesAt (game s) k = Some c)
  /\ inits s' = (inits s + 1)%nat.
Proof.
  unfold advances, rendersStep. intros Ha Hrender Hi.
  destruct (currentScene (game s)) as [c|] eqn:Hc; [|discriminate].
  apply andb_prop in Ha as (Ha & Hd). apply andb_prop in Ha as (Ho & Hi').
  apply Bool.negb_true_iff in Ho.
  assert (Hadv : intervalDone c (store s) && isComplete c (store s) = true)
    by now rewrite Hi', Hd.
  cbn zeta. set (n := Z.of_nat (length (scenes (game s)))) in *.
  set (k := (sceneIndex (game s) + 1) mod n).
  assert (Hk : 0 <= k < n) by (apply Z.mod_pos_bound; lia).
  assert (Hsome : exists c', scenesAt (game s) k = Some c').
  { unfold scenesAt. destruct (Z.ltb_spec k 0); [lia|].
    destruct (scenes (game s) !! Z.to_nat k) eqn:Hl; [eauto|].
    apply lookup_ge_None in Hl. lia. }
  destruct Hsome as (c' & Hc').
  assert (Hres : resolveScene s = Ret c' (entered c' (withIndex k s))).
  { rewrite resolveScene_eq, (selectScene_keep s c Hc Ho).
    rewrite (advanceScene_next c s Hadv). cbn zeta. fold n.
    destruct (Z.ltb_spec (sceneIndex (game s) + 1) n) as [Hlt|Hge].
    - assert (Hkk : k = sceneIndex (game s) + 1)
        by (unfold k; rewrite Z.mod_small; lia).
      rewrite <- Hkk, Hc'. reflexivity.
    - assert (Hkk : k = 0).
      { unfold k. replace (sceneIndex (game s) + 1) with n by lia.
        apply Z.mod_same. lia. }
      rewrite <- Hkk, Hc'. reflexivity. }
  rewrite Hres in Hrender.
  destruct (frame_static now1 now2 s) as (Hsc & _).
  destruct (frame_shape now1 now2 s c' _ Hres)
    as (evs & Hlog & Hpre & _ & _ & Hidx & Hcur).
  assert (Hret : returned (frame now1 now2 s) = true).
  { rewrite frame_eq, Hres.
    destruct (renderPass c' (entered c' (withIndex k s))) as [[] ?|];
      [reflexivity|discriminate]. }
  destruct (Hcur Hret) as (Hcs & _).
  split; [exact Hret|]. split; [exact Hidx|]. split; [exact Hsc|].
  split; [exists c'; auto|].
  unfold inits. rewrite Hlog, Hret. cbn [log entered with_store logged with_log withIndex with_game].
  assert (Hn : List.filter isInit evs = [])
    by (eapply renderLog_prefix_filter; [| |exact Hpre]; reflexivity).
  rewrite !List.filter_app. cbn. rewrite List.filter_app, Hn. cbn.
  rewrite !length_app. cbn.
  destruct (paused (GameHandler s)); cbn; lia.
Qed.

Lemma run_cons now1 now2 (rest : list (Z * Z)) s :
  run ((now1, now2) :: rest) s =
    match frame now1 now2 s with
    | Ret _ s' => run rest s'
    | Raise x s' => Raise x s'
    end.
Proof. reflexivity. Qed.

(** Each advancing step moves the scene index one further, modulo the
    number of scenes, and no scene transition of the run fails. *)
Lemma run_advances (ticks : list (Z * Z)) : forall s,
  everyEntry (fun s => advances s && rendersStep s) ticks s = true ->
  0 <= sceneIndex (game s) < Z.of_nat (length (scenes (game s))) ->
  let s' := final (run ticks s) in
  let k := (sceneIndex (game s) + Z.of_nat (length ticks))
             mod Z.of_nat (length (scenes (game s))) in
  returned (run ticks s) = true
  /\ scenes (game s') = scenes (game s)
  /\ sceneIndex (game s') = k
  /\ inits s' = (inits s + length ticks)%nat
  /\ ((1 <= length ticks)%nat ->
      exists c, currentScene (game s') = Some c /\ scenesAt (game s) k = Some c).
Proof.
  induction ticks as [|[now1 now2] rest IH]; intros s Hev Hi.
  - cbn. rewrite Z.add_0_r, Z.mod_small by lia. repeat split; auto; lia.
  - cbn [everyEntry] in Hev. apply andb_prop in Hev as (Hp & Hev).
    apply andb_prop in Hp as (Ha & Hr).
    destruct (advances_step now1 now2 s Ha Hr Hi)
      as (Hret & Hidx & Hsc & (c1 & Hc1 & Hat1) & Hin).
    rewrite run_cons. cbn zeta.
    destruct (frame now1 now2 s) as [[] s'|x s']; [|discriminate].
    cbn [final] in *.
    set (n := Z.of_nat (length (scenes (game s)))) in *.
    assert (Hi' : 0 <= sceneIndex (game s')
                  < Z.of_nat (length (scenes (game s')))).
    { rewrite Hsc, Hidx. apply Z.mod_pos_bound. lia. }
    destruct (IH s' Hev Hi') as (Hret' & Hsc' & Hidx' & Hin' & Hcur').
    cbn zeta in *. rewrite Hsc in Hidx', Hcur'. fold n in Hidx', Hcur'.
    assert (Hk : (sceneIndex (game s') + Z.of_nat (length rest)) mod n
                 = (sceneIndex (game s) + Z.of_nat (length ((now1, now2) :: rest)))
                     mod n).
    { rewrite Hidx, Zplus_mod_idemp_l. f_equal. cbn [length]. lia. }
    rewrite Hk in Hidx', Hcur'.
    split; [exact Hret'|]. split; [congruence|]. split; [exact Hidx'|].
    split; [rewrite Hin', Hin; cbn [length]; lia|].
    intros _. destruct rest as [|t rest'].
    + cbn [run ret final length]. exists c1. split; [exact Hc1|].
      change (Z.of_nat 1) with 1. exact Hat1.
    + destruct Hcur' as (c & Hc & Hat); [cbn; lia|].
      exists c. split; [exact Hc|].
      unfold scenesAt in *. now rewrite <- Hsc.
Qed.

Lemma everyEntry_take (p : State U D -> bool) (ticks : list (Z * Z)) :
  forall k s, everyEntry p ticks s = true -> everyEntry p (take k ticks) s = true.
Proof.
  induction ticks as [|[now1 now2] rest IH]; intros [|k] s H; try reflexivity.
  cbn [take everyEntry] in *. apply andb_prop in H as (Hp & H).
  now rewrite Hp, (IH k _ H).
Qed.

(** C4. With N >= 1 scenes and [sceneIndex] 0, take N consecutive steps in
    each of which there is no game over, the active scene passes the
    completion test (interval null or complete, [isComplete()] true) and
    no render hook throws. Then every step returns: no scene transition
    fails, the one after the last scene included. After the first [k] of
    these steps [sceneIndex] is [k mod N], the scene under that index is
    the current scene, and [onInitScene] has been called [k] times; so the
    index walks through 1, ..., N - 1 and the last step wraps it to 0, on
    [scenes[0]]. *)
Theorem scene_cycle (ticks : list (Z * Z)) s :
  (1 <= length (scenes (game s)))%nat ->
  length ticks = length (scenes (game s)) ->
  sceneIndex (game s) = 0 ->
  everyEntry (fun s => advances s && rendersStep s) ticks s = true ->
  returned (run ticks s) = true
  /\ sceneIndex (game (final (run ticks s))) = 0
  /\ (exists c, currentScene (game (final (run ticks s))) = Some c
                /\ scenesAt (game s) 0 = Some c)
  /\ (forall k, (k <= length ticks)%nat ->
        let sk := final (run (take k ticks) s) in
        returned (run (take k ticks) s) = true
        /\ sceneIndex (game sk) = Z.of_nat k mod Z.of_nat (length ticks)
        /\ inits sk = (inits s + k)%nat
        /\ ((1 <= k)%nat ->
            exists c, currentScene (game sk) = Some c
                      /\ scenesAt (game s)
                           (Z.of_nat k mod Z.of_nat (length ticks)) = Some c)).
Proof.
  intros Hn Hlen H0 Hev.
  assert (Hi : 0 <= sceneIndex (game s) < Z.of_nat (length (scenes (game s))))
    by lia.
  destruct (run_advances ticks s Hev Hi) as (Hret & _ & Hidx & _ & Hcur).
  cbn zeta in Hidx, Hcur.
  rewrite H0, Z.add_0_l, Hlen, Z.mod_same in Hidx, Hcur by lia.
  split; [exact Hret|]. split; [exact Hidx|].
  split; [apply Hcur; lia|].
  intros k Hk. cbn zeta.
  pose proof (everyEntry_take _ ticks k s Hev) as Hevk.
  destruct (run_advances (take k ticks) s Hevk Hi) as (Hr & _ & Hx & Hin & Hc).
  cbn zeta in Hx, Hc. rewrite length_take_le in Hx, Hin, Hc by exact Hk.
  rewrite H0, Z.add_0_l, <- Hlen in Hx, Hc.
  auto.
Qed.

(** *** Game over on consecutive steps *)

Lemma game_over_step now1 now2 s e i :
  endScene (game s) = Some e ->
  interval e = Some i ->
  gameOverStep s = true ->
  resolveScene s = Ret e (entered e (withIndex (-1) s))
  /\ (returned (frame now1 now2 s) = true ->
      log (final (frame now1 now2 s)) =
        log s ++ gameOverLog e i (paused (GameHandler s)) (now1, now2)
      /\ sceneIndex (game (final (frame now1 now2 s))) = -1
      /\ currentScene (game (final (frame now1 now2 s))) = Some e).
Proof.
  intros He Hi Hgo. unfold gameOverStep in Hgo.
  destruct (currentScene (game s)) as [c|] eqn:Hc; [|discriminate].
  set (s1 := entered e (withIndex (-1) s)).
  assert (Hd : intervalDone e (store s1) = false)
    by apply (intervalDone_entered e i _ Hi).
  assert (Hr : resolveScene s = Ret e s1).
  { rewrite resolveScene_eq, (selectScene_over s c Hc Hgo), He, callInitScene_some.
    apply advanceScene_keep. fold s1. now rewrite Hd. }
  split; [exact Hr|]. intros Hret.
  destruct (frame_shape now1 now2 s e s1 Hr)
    as (evs & Hlog & _ & _ & Hevs & Hidx & Hcur).
  destruct (Hcur Hret) as (Hcs & _).
  split; [|split; [exact Hidx|exact Hcs]].
  rewrite Hlog, Hret, (Hevs Hret).
  destruct (renderLog_blocked e _ Hd) as (i' & Hi' & ->).
  assert (i' = i) as -> by congruence.
  subst s1. unfold gameOverLog. cbn. rewrite <- !app_assoc. reflexivity.
Qed.

(** C10. When [isGameOver()] is called and returns true on every step of a
    run, each step takes the game-over branch again: the scene transition
    of each such step ends on the end scene with its interval freshly reset
    (frame counter 0, not complete), whatever the flag was on entry; so the
    log of the run is, step after step, [endScene.onInitScene()] followed
    by a render pass through the interval renderer, and the run ends with
    [sceneIndex] -1 on the end scene. *)
Theorem game_over_reinit (ticks : list (Z * Z)) s e i :
  endScene (game s) = Some e ->
  interval e = Some i ->
  everyStep gameOverStep ticks s = true ->
  (forall s0,
      endScene (game s0) = Some e -> gameOverStep s0 = true ->
      exists s1, resolveScene s0 = Ret e s1
                 /\ intervals (store s1) !! iref i
                    = Some {| framecounter := 0; complete := false |})
  /\ returned (run ticks s) = true
  /\ log (final (run ticks s)) =
       log s ++ flat_map (gameOverLog e i (paused (GameHandler s))) ticks
  /\ (ticks <> [] ->
      sceneIndex (game (final (run ticks s))) = -1
      /\ currentScene (game (final (run ticks s))) = Some e).
Proof.
  intros He Hi Hev. split.
  { intros s0 He0 Hgo.
    destruct (game_over_step 0 0 s0 e i He0 Hi Hgo) as (Hr & _).
    eexists. split; [exact Hr|]. cbn. now apply onInitScene_resets. }
  revert s He Hev.
  induction ticks as [|[now1 now2] rest IH]; intros s He Hev.
  - cbn. rewrite app_nil_r. repeat split; easy.
  - cbn [everyStep] in Hev. apply andb_prop in Hev as (Hgo & Hev).
    destruct (game_over_step now1 now2 s e i He Hi Hgo) as (_ & Hstep).
    destruct (frame_static now1 now2 s) as (_ & He' & _ & _ & Hp).
    rewrite run_cons.
    destruct (frame now1 now2 s) as [[] s'|x s']; [|discriminate].
    cbn [final returned] in *.
    destruct (Hstep eq_refl) as (Hlog & Hidx & Hcur).
    rewrite He in He'.
    destruct (IH s' He' Hev) as (Hret & Hlog' & Hlast).
    split; [exact Hret|]. split.
    + rewrite Hlog', Hlog, Hp. cbn [flat_map]. now rewrite <- app_assoc.
    + intros _. destruct rest as [|t rest']; [cbn; auto|].
      apply Hlast. discriminate.
Qed.

End SceneMachine.

(** ** The loop on the small game *)

Module DemoRuns.

Import Demo.

(** C1: the clock went back by 10 ms between two frames; the step
    completes with a negative multiplier, where the clamp to 1 ms would
    give [1 / FPSMS]. *)
Lemma frame_multiplier_unclamped :
  let s := start gated 100 in
  let o := frame 90 95 s in
  returned o = true
  /\ 90 - frameStart (GameHandler s) = -10
  /\ ~ (0 < frameMultipler (GameHandler (final o)))%Q
  /\ ~ (frameMultipler (GameHandler (final o))
        == inject_Z (Z.max (-10) 1) / FPSMS)%Q.
Proof.
  cbn zeta. split; [reflexivity|]. split; [reflexivity|].
  split; vm_compute; intros H; discriminate H.
Qed.

Lemma frame_multiplier_witness :
  returned (frame 20 25 (start gated 0)) = true
  /\ (0 < frameMultipler (GameHandler (final (frame 20 25 (start gated 0)))))%Q.
Proof.
  assert (H : returned (frame 20 25 (start gated 0)) = true) by reflexivity.
  split; [exact H|].
  destruct (frame_multiplier 20 25 (start gated 0) H) as (_ & Hpos & _).
  apply Hpos. vm_compute. discriminate.
Defined.

(** C2: on the first frame of two plain scenes, the first of which is
    complete, the step initialises both and ends on [scenes[1]]. *)
Lemma first_frame_advances :
  let s := start twoScenes 0 in
  let o := frame 10 12 s in
  currentScene (game s) = None
  /\ returned o = true
  /\ sceneIndex (game (final o)) = 1
  /\ option_map sid (currentScene (game (final o))) = Some 1%nat
  /\ List.filter isInit (stepLog 10 12 s) = [EvInitScene 0; EvInitScene 1].
Proof. cbn zeta. repeat split; reflexivity. Qed.

Lemma scene_resolution_witness :
  (List.filter isInit (stepLog 10 12 (start steady 0)) = []
   /\ sceneIndex (game (final (frame 10 12 (start steady 0)))) = 0)
  /\ sceneIndex (game (final (frame 10 12 (start gated 0)))) = 0.
Proof.
  split.
  - destruct (scene_resolution 10 12 (start steady 0)) as (_ & Hkeep & _).
    destruct (Hkeep (scene 0 None false)) as (Hn & Hi & _);
      [reflexivity|reflexivity|reflexivity|]. split; [exact Hn|exact Hi].
  - destruct (scene_resolution 10 12 (start gated 0)) as (_ & _ & Hfirst).
    exact (proj1 (Hfirst (scene 0 (Some (banner 7 2)) false) eq_refl eq_refl)).
Defined.

Lemma render_paths_exclusive_witness :
  (forall sc, ~ In (EvBeforeRenderScene sc) (stepLog 10 12 (start gated 0))
              /\ ~ In (EvRenderScene sc) (stepLog 10 12 (start gated 0)))
  /\ (returned (frame 10 12 (start gated 0)) = true ->
      exists i, interval (scene 0 (Some (banner 7 2)) false) = Some i
                /\ List.filter isRender (stepLog 10 12 (start gated 0))
                   = intervalLog (scene 0 (Some (banner 7 2)) false) i).
Proof.
  exact (render_paths_exclusive 10 12 (start gated 0)
           (scene 0 (Some (banner 7 2)) false)
           (entered (scene 0 (Some (banner 7 2)) false)
                    (withIndex 0 (start gated 0)))
           eq_refl).
Defined.

Lemma scene_cycle_witness :
  returned (run [(0, 1); (16, 17); (33, 34)] (start cycling 0)) = true
  /\ sceneIndex (game (final (run [(0, 1); (16, 17); (33, 34)] (start cycling 0)))) = 0
  /\ sceneIndex (game (final (run (take 2 [(0, 1); (16, 17); (33, 34)])
                                  (start cycling 0)))) = 2.
Proof.
  destruct (scene_cycle [(0, 1); (16, 17); (33, 34)] (start cycling 0))
    as (Hret & Hidx & _ & Hsteps).
  - cbn. lia.
  - reflexivity.
  - reflexivity.
  - reflexivity.
  - split; [exact Hret|]. split; [exact Hidx|].
    exact (proj1 (proj2 (Hsteps 2%nat ltac:(cbn; lia)))).
Defined.





(** C7: a step that took 20 ms requests the next frame with offset -3. *)
Lemma slow_frame_negative_offset :
  let s := start gated 0 in
  paused (GameHandler s) = false
  /\ returned (frame 0 20 s) = true
  /\ stepLog 0 20 s = [EvInitScene 0; EvSave; EvRenderGame;
                       EvIntervalRenderer 0 7; EvRestore;
                       EvRequestAnimFrame (-3)].
Proof. cbn zeta. repeat split; reflexivity. Qed.

Lemma frame_offset_witness :
  frameOffsetOf 10 12 = (1000 - 60 * (12 - 10)) ÷ 60
  /\ (0 <= frameOffsetOf 10 12 <-> 12 - 10 <= 17).
Proof.
  destruct (frame_offset 10 12 (start gated 0)) as (_ & Hq & Hs).
  - reflexivity.
  - reflexivity.
  - lia.
  - split; [exact Hq|exact Hs].
Defined.

(** C9: without scenes the first step reads [scenes[0]], past the end of
    the list, and stops on the TypeError of the call on [undefined]. *)
Lemma empty_scenes_dereference :
  scenes noScenes = []
  /\ scenesAt noScenes 0 = None
  /\ frame 0 1 (start noScenes 0)
     = Raise (TypeError JSundefined "onInitScene")
             (withIndex 0 (start noScenes 0)).
Proof. repeat split; reflexivity. Qed.

Lemma frame_missing_scene_witness :
  frame 0 1 (start noScenes 0)
    = Raise (TypeError JSundefined "onInitScene") (withIndex 0 (start noScenes 0))
  /\ frame 0 1 (start lostNoEnd 0)
    = Raise (TypeError JSnull "onInitScene") (withIndex (-1) (start lostNoEnd 0)).
Proof.
  split.
  - apply (proj1 (frame_missing_scene 0 1 (start noScenes 0))); reflexivity.
  - apply (proj2 (frame_missing_scene 0 1 (start lostNoEnd 0)));
      [discriminate|reflexivity|reflexivity].
Defined.

(** The banner of the end scene completes on its first frame, so the flag
    is true when the second step starts; that step resets it and renders
    the banner again. *)
Lemma game_over_reinit_witness :
  intervals (store (final (frame 0 1 (start lostBanner 0)))) !! 7%nat
    = Some {| framecounter := 1; complete := true |}
  /\ log (final (run [(0, 1); (16, 17)] (start lostBanner 0))) =
       [EvInitScene 9; EvSave; EvRenderGame; EvIntervalRenderer 9 7; EvRestore;
        EvRequestAnimFrame 15;
        EvInitScene 9; EvSave; EvRenderGame; EvIntervalRenderer 9 7; EvRestore;
        EvRequestAnimFrame 15].
Proof.
  split; [reflexivity|].
  destruct (game_over_reinit [(0, 1); (16, 17)] (start lostBanner 0)
              (scene 9 (Some (banner 7 1)) true) (banner 7 1)
              eq_refl eq_refl eq_refl) as (_ & _ & Hlog & _).
  exact Hlog.
Defined.

End DemoRuns.

(** ** Further properties of the main loop *)

Section LoopProperties.

Context {U D : Type}.
Implicit Types (s : State U D) (cs c e : Scene U D) (i : Interval U D).

(** A step that throws leaves the game handler and the current scene
    reference alone. *)
Lemma frame_thrown now1 now2 s :
  returned (frame now1 now2 s) = false ->
  GameHandler (final (frame now1 now2 s)) = GameHandler s
  /\ currentScene (game (final (frame now1 now2 s))) = currentScene (game s).
Proof.
  intros Hret. rewrite frame_eq in *.
  pose proof (resolveScene_sameLoop s) as (Hg & _ & _ & _ & Hc & _).
  destruct (resolveScene s) as [cs s1|x s1]; cbn [final] in *; [|auto].
  destruct (renderPass_shape cs s1) as (st & evs & Hf & _).
  destruct (renderPass cs s1) as [[] s2|x s2]; cbn [final returned] in *;
    [discriminate|].
  rewrite Hf. cbn. auto.
Qed.

Lemma run_snoc_returned (ticks : list (Z * Z)) : forall s,
  returned (run ticks s) = true ->
  frameCount (GameHandler (final (run ticks s))) =
    frameCount (GameHandler s) + Z.of_nat (length ticks).
Proof.
  induction ticks as [|[now1 now2] rest IH]; intros s Hret.
  - cbn. lia.
  - rewrite run_cons in *.
    pose proof (frame_GameHandler now1 now2 s) as Hg.
    destruct (frame now1 now2 s) as [[] s'|x s']; [|discriminate].
    cbn [final returned] in Hg. rewrite (IH s' Hret), (Hg eq_refl).
    cbn [length]. cbn. lia.
Qed.

(** The frame counter counts the completed steps: a step that completes
    adds one, a step that throws adds nothing, and a run that returns has
    added the number of its steps. *)
Theorem frameCount_counts now1 now2 (ticks : list (Z * Z)) s :
  frameCount (GameHandler (final (frame now1 now2 s))) =
    frameCount (GameHandler s) + (if returned (frame now1 now2 s) then 1 else 0)
  /\ (returned (run ticks s) = true ->
      frameCount (GameHandler (final (run ticks s))) =
        frameCount (GameHandler s) + Z.of_nat (length ticks)).
Proof.
  split; [|apply run_snoc_returned].
  destruct (returned (frame now1 now2 s)) eqn:Hret.
  - now rewrite (frame_GameHandler now1 now2 s Hret).
  - destruct (frame_thrown now1 now2 s Hret) as (-> & _). lia.
Qed.

(** Two completed steps in a row: the multiplier after the second is the
    time from the entry of the first to the entry of the second (0 counted
    as 1) over the ideal interval, whatever the render times and the
    earlier frame start were. *)
Theorem frameMultipler_entry_to_entry now1 now2 now3 now4 s :
  returned (frame now1 now2 s) = true ->
  returned (frame now3 now4 (final (frame now1 now2 s))) = true ->
  let s2 := final (frame now3 now4 (final (frame now1 now2 s))) in
  frameStart (GameHandler s2) = now3
  /\ frameMultipler (GameHandler s2)
     = (inject_Z (if now3 - now1 =? 0 then 1 else now3 - now1) / FPSMS)%Q.
Proof.
  intros H1 H2. cbn zeta.
  rewrite (frame_GameHandler now3 now4 _ H2).
  unfold timed at 1 2. cbn.
  rewrite (frame_GameHandler now1 now2 s H1). auto.
Qed.

Lemma Qtrunc_fps z : z <> 0 -> Qtrunc (1000 / inject_Z z) = 1000 ÷ z.
Proof.
  intros Hz. unfold Qtrunc, Qdiv, Qmult, Qinv, inject_Z.
  destruct z as [|p|p]; [easy| |]; cbn [Qnum Qden].
  - now rewrite Z.mul_1_r, Pos.mul_1_l.
  - rewrite Pos.mul_1_l. change (1000 * -1) with (Z.opp 1000).
    change (Z.neg p) with (Z.opp (Z.pos p)).
    now rewrite Z.quot_opp_l, Z.quot_opp_r by easy.
Qed.

Lemma fps_range z : z <> 0 -> - 2 ^ 31 <= 1000 ÷ z < 2 ^ 31.
Proof.
  intros Hz.
  pose proof (Z.quot_rem' 1000 z) as Hq.
  pose proof (Z.rem_bound_pos 1000 z) as Hp.
  pose proof (Z.rem_bound_neg_pos 1000 z) as Hn.
  assert (Habs : Z.abs (1000 ÷ z) <= 1000).
  { destruct (Z.eq_dec (1000 ÷ z) 0) as [->|Hne]; [cbn; lia|].
    assert (Z.abs z * Z.abs (1000 ÷ z) <= 1000); [|nia].
    rewrite <- Z.abs_mul. pose proof (Z.mul_quot_le 1000 z).
    pose proof (Z.mul_quot_ge 1000 z). lia. }
  lia.
Qed.

(** The diagnostic [maxfps] changes on every 16th completed step only, and
    is then 1000 divided by the frame interval, truncated toward zero. *)
Theorem maxfps_every_16th now1 now2 s :
  returned (frame now1 now2 s) = true ->
  maxfps (GameHandler (final (frame now1 now2 s))) =
    if Z.rem (frameCount (GameHandler s) + 1) 16 =? 0
    then 1000 ÷ frameIntervalOf now1 (frameStart (GameHandler s))
    else maxfps (GameHandler s).
Proof.
  intros Hret. rewrite (frame_GameHandler now1 now2 s Hret). cbn.
  destruct (_ =? 0); [|reflexivity].
  assert (Hz : frameIntervalOf now1 (frameStart (GameHandler s)) <> 0).
  { unfold frameIntervalOf. cbn zeta. destruct (Z.eqb_spec (now1 - frameStart (GameHandler s)) 0); lia. }
  unfold dtilde. rewrite (Qtrunc_fps _ Hz). apply to_int32_small.
  now apply fps_range.
Qed.

Lemma stepLog_requests now1 now2 s :
  List.filter isRequest (stepLog now1 now2 s) =
    if returned (frame now1 now2 s) && negb (paused (GameHandler s))
    then [EvRequestAnimFrame (frameOffsetOf now1 now2)]
    else [].
Proof.
  destruct (resolveScene s) as [cs s1|x s1] eqn:Hr.
  - destruct (stepLog_shape now1 now2 s cs s1 Hr)
      as (o1 & o2 & evs & -> & _ & Hpre & _).
    assert (Hn : List.filter isRequest evs = []).
    { eapply renderLog_prefix_filter; [| |exact Hpre]; reflexivity. }
    rewrite !List.filter_app. cbn. rewrite List.filter_app, Hn.
    destruct o1, o2, (returned (frame now1 now2 s)),
      (paused (GameHandler s)); reflexivity.
  - destruct (resolveScene_log s) as (o1 & o2 & Hl).
    rewrite Hr in Hl. cbn [final] in Hl.
    rewrite (stepLog_app now1 now2 s (initLog o1 ++ initLog o2)).
    + rewrite (frame_raise now1 now2 s x s1 Hr). now destruct o1, o2.
    + now rewrite (frame_raise now1 now2 s x s1 Hr).
Qed.

(** A step asks for the next frame once, when it completes and the game is
    not paused, and not at all otherwise: a paused game and a step that
    throws both end the chain of callbacks. *)
Theorem request_once now1 now2 s :
  List.filter isRequest (stepLog now1 now2 s) =
    if returned (frame now1 now2 s) && negb (paused (GameHandler s))
    then [EvRequestAnimFrame (frameOffsetOf now1 now2)]
    else [].
Proof. apply stepLog_requests. Qed.

Lemma selectScene_index s :
  let k := sceneIndex (game (final (selectScene s))) in
  k = 0 \/ k = -1 \/ k = sceneIndex (game s).
Proof.
  cbn zeta. destruct (currentScene (game s)) as [c|] eqn:Hc.
  - destruct (isGameOver (game s) (store s)) eqn:Ho.
    + rewrite (selectScene_over s c Hc Ho).
      right. left. now destruct (endScene (game s)).
    + rewrite (selectScene_keep s c Hc Ho). auto.
  - rewrite (selectScene_init s Hc). left. now destruct (scenesAt (game s) 0).
Qed.

Lemma advanceScene_index_any cs s :
  let k := sceneIndex (game (final (advanceScene cs s))) in
  k = sceneIndex (game s)
  \/ k = (if sceneIndex (game s) + 1 <? Z.of_nat (length (scenes (game s)))
          then sceneIndex (game s) + 1 else 0).
Proof.
  cbn zeta.
  destruct (intervalDone cs (store s) && isComplete cs (store s)) eqn:Ha.
  - right. now apply advanceScene_index.
  - left. now rewrite (advanceScene_keep cs s Ha).
Qed.

(** With at least one scene, [sceneIndex] stays -1 or an index into the
    scene list over every step, whether the step completes or throws. *)
Theorem sceneIndex_in_range now1 now2 s :
  (1 <= length (scenes (game s)))%nat ->
  -1 <= sceneIndex (game s) < Z.of_nat (length (scenes (game s))) ->
  -1 <= sceneIndex (game (final (frame now1 now2 s)))
     < Z.of_nat (length (scenes (game s))).
Proof.
  intros Hn Hi. rewrite frame_sceneIndex, resolveScene_eq.
  pose proof (selectScene_index s) as Hsel.
  pose proof (selectScene_sameLoop s) as (_ & Hsc & _).
  destruct (selectScene s) as [cs s1|x s1]; cbn [final] in *; [|lia].
  pose proof (advanceScene_index_any cs s1) as Hadv. cbn zeta in Hadv.
  rewrite Hsc in Hadv.
  destruct (Z.ltb_spec (sceneIndex (game s1) + 1)
                       (Z.of_nat (length (scenes (game s))))); lia.
Qed.

Lemma callInitScene_Ret v (o : option (Scene U D)) s cs s1 :
  callInitScene v o s = Ret cs s1 -> o = Some cs /\ s1 = entered cs s.
Proof. destruct o; cbn; [intros [= <- <-]; auto|discriminate]. Qed.

(** The scene that a scene transition ends on is the scene under the scene
    index it leaves. *)
Lemma resolveScene_coherent s cs s1 :
  coherent s ->
  resolveScene s = Ret cs s1 ->
  if sceneIndex (game s1) =? -1 then endScene (game s) = Some cs
  else scenesAt (game s) (sceneIndex (game s1)) = Some cs.
Proof.
  intros Hco. rewrite resolveScene_eq.
  pose proof (selectScene_sameLoop s) as (_ & Hsc & _ & Hend & _).
  destruct (selectScene s) as [c1 s0|x s0] eqn:Hsel; [|discriminate].
  cbn [final] in Hsc, Hend.
  assert (H0 : if sceneIndex (game s0) =? -1 then endScene (game s) = Some c1
               else scenesAt (game s) (sceneIndex (game s0)) = Some c1).
  { unfold coherent in Hco.
    destruct (currentScene (game s)) as [c|] eqn:Hc.
    - destruct (isGameOver (game s) (store s)) eqn:Ho.
      + rewrite (selectScene_over s c Hc Ho) in Hsel.
        apply callInitScene_Ret in Hsel as (He & ->). exact He.
      + rewrite (selectScene_keep s c Hc Ho) in Hsel.
        injection Hsel as <- <-. exact Hco.
    - rewrite (selectScene_init s Hc) in Hsel.
      apply callInitScene_Ret in Hsel as (He & ->). exact He. }
  destruct (intervalDone c1 (store s0) && isComplete c1 (store s0)) eqn:Ha.
  - rewrite (advanceScene_next c1 s0 Ha). cbn zeta.
    assert (Hat : forall k, scenesAt (game s0) k = scenesAt (game s) k).
    { intros k. unfold scenesAt. now rewrite Hsc. }
    destruct (Z.ltb_spec (sceneIndex (game s0) + 1)
                         (Z.of_nat (length (scenes (game s0))))) as [Hlt|Hge];
      intros Hr; apply callInitScene_Ret in Hr as (He & ->); cbn;
      rewrite Hat in He.
    + destruct (Z.eqb_spec (sceneIndex (game s0) + 1) (-1)) as [Heq|]; [|exact He].
      rewrite Heq in He. discriminate.
    + exact He.
  - rewrite (advanceScene_keep c1 s0 Ha). intros [= <- <-]. exact H0.
Qed.

Lemma frame_coherent now1 now2 s :
  coherent s ->
  returned (frame now1 now2 s) = true ->
  coherent (final (frame now1 now2 s)).
Proof.
  intros Hco Hret.
  destruct (frame_static now1 now2 s) as (Hsc & Hend & _).
  destruct (resolveScene s) as [cs s1|x s1] eqn:Hr.
  - pose proof (resolveScene_coherent s cs s1 Hco Hr) as H.
    destruct (frame_shape now1 now2 s cs s1 Hr)
      as (_ & _ & _ & _ & _ & Hi & Hcur).
    destruct (Hcur Hret) as (Hc & _).
    unfold coherent, scenesAt in *. cbn zeta in *.
    rewrite Hc, Hi, Hend, Hsc. exact H.
  - rewrite (frame_raise now1 now2 s x s1 Hr) in Hret. discriminate.
Qed.

(** Over completed steps the current scene reference and the scene index
    stay in agreement. (A step that throws during the render pass may have
    moved the index already.) *)
Theorem coherent_kept now1 now2 s :
  coherent s ->
  returned (frame now1 now2 s) = true ->
  coherent (final (frame now1 now2 s)).
Proof. apply frame_coherent. Qed.

(** [currentScene] is null before the first completed step only: a step
    that completes sets it, and no step sets it back to null. *)
Theorem currentScene_set now1 now2 s :
  (returned (frame now1 now2 s) = true ->
   currentScene (game (final (frame now1 now2 s))) <> None)
  /\ (currentScene (game s) <> None ->
      currentScene (game (final (frame now1 now2 s))) <> None).
Proof.
  assert (H : returned (frame now1 now2 s) = true ->
              currentScene (game (final (frame now1 now2 s))) <> None).
  { intros Hret. destruct (resolveScene s) as [cs s1|x s1] eqn:Hr.
    - destruct (frame_shape now1 now2 s cs s1 Hr)
        as (_ & _ & _ & _ & _ & _ & Hcur).
      destruct (Hcur Hret) as (-> & _). discriminate.
    - rewrite (frame_raise now1 now2 s x s1 Hr) in Hret. discriminate. }
  split; [exact H|]. intros Hc.
  destruct (returned (frame now1 now2 s)) eqn:Hret; [now apply H|].
  now destruct (frame_thrown now1 now2 s Hret) as (_ & ->).
Qed.

(** A frame writes [sceneIndex], [currentScene], the counters, the store
    and the log, and nothing else: the scene list, the start and end
    scenes, the methods of the game and the pause flag are as before. *)
Theorem frame_leaves_configuration now1 now2 s :
  let s' := final (frame now1 now2 s) in
  scenes (game s') = scenes (game s)
  /\ startScene (game s') = startScene (game s)
  /\ endScene (game s') = endScene (game s)
  /\ onRenderGame (game s') = onRenderGame (game s)
  /\ isGameOver (game s') = isGameOver (game s)
  /\ paused (GameHandler s') = paused (GameHandler s).
Proof.
  cbn zeta.
  destruct (frame_static now1 now2 s) as (Hs & He & Ho & Hr & Hp).
  repeat split; auto.
  rewrite frame_eq.
  pose proof (resolveScene_sameLoop s) as (_ & _ & Hst & _).
  destruct (resolveScene s) as [cs s1|x s1]; cbn [final] in *; [|exact Hst].
  destruct (renderPass_shape cs s1) as (st & evs & Hf & _).
  destruct (renderPass cs s1) as [[] s2|x s2]; cbn [final] in *; rewrite Hf.
  - now rewrite finished_game.
  - exact Hst.
Qed.

(** [onInitScene] resets the interval of the scene and nothing else: the
    other intervals, the canvas and the game data are as before, and a
    scene without interval changes nothing. A second scene that shares the
    interval sees it reset as well. *)
Theorem onInitScene_frame_rule cs (st : Store U D) :
  (interval cs = None -> onInitScene cs st = st)
  /\ (forall i, interval cs = Some i ->
        intervals (onInitScene cs st) !! iref i
          = Some {| framecounter := 0; complete := false |}
        /\ (forall ref, ref <> iref i ->
              intervals (onInitScene cs st) !! ref = intervals st !! ref)
        /\ ctx (onInitScene cs st) = ctx st
        /\ world (onInitScene cs st) = world st
        /\ (forall c i', interval c = Some i' -> iref i' = iref i ->
              intervalDone c (onInitScene cs st) = false)).
Proof.
  split.
  - intros Hn. unfold onInitScene. now rewrite Hn.
  - intros i Hi. unfold onInitScene, reset. rewrite Hi. cbn.
    split; [apply lookup_insert_eq|]. split; [|split; [reflexivity|]].
    + intros ref Hne. now apply lookup_insert_ne.
    + split; [reflexivity|]. intros c i' Hc Href.
      unfold intervalDone, intervalComplete. rewrite Hc, Href. cbn.
      now rewrite lookup_insert_eq.
Qed.

(** *** The canvas over a step *)

Lemma callInitScene_ctx v (o : option (Scene U D)) s :
  ctx (store (final (callInitScene v o s))) = ctx (store s).
Proof.
  destruct o as [sc|]; cbn; [|reflexivity].
  unfold onInitScene. now destruct (interval sc).
Qed.

Lemma resolveScene_ctx s :
  ctx (store (final (resolveScene s))) = ctx (store s).
Proof.
  rewrite resolveScene_eq.
  assert (H1 : ctx (store (final (selectScene s))) = ctx (store s)).
  { destruct (currentScene (game s)) as [c|] eqn:Hc.
    - destruct (isGameOver (game s) (store s)) eqn:Ho.
      + rewrite (selectScene_over s c Hc Ho). now rewrite callInitScene_ctx.
      + now rewrite (selectScene_keep s c Hc Ho).
    - rewrite (selectScene_init s Hc). now rewrite callInitScene_ctx. }
  destruct (selectScene s) as [cs s1|x s1]; cbn [final] in *; [|exact H1].
  rewrite <- H1.
  destruct (intervalDone cs (store s1) && isComplete cs (store s1)) eqn:Ha.
  - rewrite (advanceScene_next cs s1 Ha). cbn zeta.
    destruct (_ <? _); now rewrite callInitScene_ctx.
  - now rewrite (advanceScene_keep cs s1 Ha).
Qed.

Lemma finished_store now1 now2 cs s :
  store (finished now1 now2 cs s) = store s.
Proof. unfold finished. cbn. now destruct (paused (GameHandler s)). Qed.

Lemma renderScene_stack cs s :
  keepsStack (onBeforeRenderScene cs) ->
  keepsStack (onRenderGame (game s)) ->
  keepsStack (onRenderScene cs) ->
  (forall i, interval cs = Some i -> keepsStack (intervalRenderer i (sid cs))) ->
  savedStates (ctx (store (final (renderScene cs s))))
    = savedStates (ctx (store s)).
Proof.
  intros Hb Hg Hr Hi.
  assert (Hn : savedStates (ctx (store (final (renderNormal cs s))))
               = savedStates (ctx (store s))).
  { unfold renderNormal, bind, gets, emit, modify, call, logged. cbn.
    pose proof (Hb (store s)) as H1.
    destruct (onBeforeRenderScene cs (store s)) as [[] st1|x st1];
      cbn in *; [|exact H1].
    pose proof (Hg st1) as H2.
    destruct (onRenderGame (game s) st1) as [[] st2|x st2];
      cbn in *; [|congruence].
    pose proof (Hr st2) as H3.
    destruct (onRenderScene cs st2) as [[] st3|x st3]; cbn in *; congruence. }
  unfold renderScene. destruct (interval cs) as [i|]; [|exact Hn].
  unfold bind, gets. destruct (intervalComplete i (store s)); [exact Hn|].
  specialize (Hi i eq_refl).
  unfold renderInterval, bind, gets, emit, modify, call, logged. cbn.
  pose proof (Hg (store s)) as H1.
  destruct (onRenderGame (game s) (store s)) as [[] st1|x st1];
    cbn in *; [|exact H1].
  pose proof (Hi st1) as H2.
  destruct (intervalRenderer i (sid cs) st1) as [[] st2|x st2];
    cbn in *; congruence.
Qed.

(** When the hooks of the active scene and of the game leave the stack of
    saved states as they found it, a step that completes leaves the
    drawing context exactly as it was before the step: whatever the hooks
    did to the transform or the styles is undone by the restore. *)
Theorem canvas_restored now1 now2 s cs s1 :
  resolveScene s = Ret cs s1 ->
  keepsStack (onBeforeRenderScene cs) ->
  keepsStack (onRenderGame (game s)) ->
  keepsStack (onRenderScene cs) ->
  (forall i, interval cs = Some i -> keepsStack (intervalRenderer i (sid cs))) ->
  returned (frame now1 now2 s) = true ->
  ctx (store (final (frame now1 now2 s))) = ctx (store s).
Proof.
  intros Hres Hb Hg Hr Hi Hret.
  pose proof (resolveScene_ctx s) as Hctx.
  pose proof (resolveScene_sameLoop s) as (_ & _ & _ & _ & _ & Hrg & _).
  rewrite Hres in Hctx, Hrg. cbn [final] in Hctx, Hrg.
  rewrite frame_eq, Hres in *. rewrite renderPass_eq in *.
  assert (Hg' : keepsStack (onRenderGame (game (saved s1)))) by now (cbn; rewrite Hrg).
  pose proof (renderScene_stack cs (saved s1) Hb Hg' Hr Hi) as Hst.
  destruct (renderScene cs (saved s1)) as [[] s2|x s2];
    cbn [final returned] in *; [|discriminate].
  rewrite finished_store.
  unfold restored. cbn zeta. rewrite Hst. cbn.
  rewrite <- Hctx. now destruct (ctx (store s1)).
Qed.

(** *** Pause, resume and the keys *)

Lemma frame_log_app now1 now2 s :
  log (final (frame now1 now2 s)) = log s ++ stepLog now1 now2 s.
Proof.
  destruct (resolveScene_log s) as (o1 & o2 & Hl).
  destruct (resolveScene s) as [cs s1|x s1] eqn:Hr; cbn [final] in Hl.
  - destruct (frame_shape now1 now2 s cs s1 Hr) as (evs & Hlog & _).
    rewrite Hl, <- !app_assoc in Hlog.
    now rewrite (stepLog_app now1 now2 s _ Hlog).
  - rewrite (frame_raise now1 now2 s x s1 Hr) in *. cbn [final].
    rewrite (stepLog_app now1 now2 s (initLog o1 ++ initLog o2)); [exact Hl|].
    now rewrite (frame_raise now1 now2 s x s1 Hr).
Qed.

Lemma frame_requests now1 now2 s :
  requests (final (frame now1 now2 s)) =
    (requests s
     + (if returned (frame now1 now2 s) && negb (paused (GameHandler s))
        then 1 else 0))%nat.
Proof.
  unfold requests. rewrite frame_log_app, List.filter_app, length_app.
  rewrite stepLog_requests. now destruct (_ && _).
Qed.

(** The state in which [pause()] resumes the game. *)
Lemma GameHandler_pause_paused now0 now1 now2 s :
  paused (GameHandler s) = true ->
  GameHandler_pause now0 now1 now2 s =
    frame now1 now2
      (with_GameHandler (withFrameStart now0 (withPaused false (GameHandler s))) s).
Proof.
  intros Hp. unfold GameHandler_pause, bind, gets, modify. now rewrite Hp.
Qed.

Lemma GameHandler_pause_running now0 now1 now2 s :
  paused (GameHandler s) = false ->
  GameHandler_pause now0 now1 now2 s =
    Ret tt (with_GameHandler (withPaused true (GameHandler s)) s).
Proof.
  intros Hp. unfold GameHandler_pause, bind, gets, modify. now rewrite Hp.
Qed.

(** [pause()] on a running game sets the flag and does nothing else: no
    frame runs and nothing is requested. The callback that is still due
    then runs its frame without asking for another, so the loop stops. *)
Theorem pause_stops_loop now0 now1 now2 s :
  paused (GameHandler s) = false ->
  let s' := final (GameHandler_pause now0 now1 now2 s) in
  returned (GameHandler_pause now0 now1 now2 s) = true
  /\ GameHandler s' = withPaused true (GameHandler s)
  /\ game s' = game s /\ store s' = store s /\ log s' = log s
  /\ (forall t1 t2, requests (final (input (Fire t1 t2) s')) = requests s).
Proof.
  intros Hp. cbn zeta. rewrite (GameHandler_pause_running _ _ _ s Hp).
  cbn [final returned]. repeat split.
  intros t1 t2. unfold input, GameHandler_start, bind, ret.
  change (requests
            (final (frame t1 t2
                      (with_GameHandler (withPaused true (GameHandler s)) s)))
          = requests s).
  rewrite frame_requests. cbn. rewrite Bool.andb_false_r.
  unfold requests. cbn. lia.
Qed.

Lemma resume_step now0 now1 now2 s :
  paused (GameHandler s) = true ->
  returned (GameHandler_pause now0 now1 now2 s) = true ->
  let s' := final (GameHandler_pause now0 now1 now2 s) in
  paused (GameHandler s') = false
  /\ frameMultipler (GameHandler s')
     = (inject_Z (if now1 - now0 =? 0 then 1 else now1 - now0) / FPSMS)%Q
  /\ frameCount (GameHandler s') = frameCount (GameHandler s) + 1
  /\ requests s' = (requests s + 1)%nat.
Proof.
  intros Hp. cbn zeta. rewrite (GameHandler_pause_paused _ _ _ s Hp).
  set (s0 := with_GameHandler _ s). intros Hret.
  rewrite (frame_GameHandler now1 now2 s0 Hret), frame_requests, Hret.
  cbn. repeat split.
Qed.

(** [pause()] on a paused game clears the flag, moves [frameStart] to the
    present and runs one frame at once. When that frame completes, its
    multiplier is the time since the resume (0 counted as 1) over the
    ideal interval, so the time spent paused is not counted; and the next
    frame is requested. *)
Theorem resume_excludes_pause now0 now1 now2 s :
  paused (GameHandler s) = true ->
  returned (GameHandler_pause now0 now1 now2 s) = true ->
  let s' := final (GameHandler_pause now0 now1 now2 s) in
  paused (GameHandler s') = false
  /\ frameMultipler (GameHandler s')
     = (inject_Z (if now1 - now0 =? 0 then 1 else now1 - now0) / FPSMS)%Q
  /\ frameCount (GameHandler s') = frameCount (GameHandler s) + 1
  /\ requests s' = (requests s + 1)%nat.
Proof. apply resume_step. Qed.

Lemma drive_pause_pause p0 p1 p2 q0 q1 q2 s :
  paused (GameHandler s) = false ->
  drive [Pause p0 p1 p2; Pause q0 q1 q2] s =
    match GameHandler_pause q0 q1 q2
            (with_GameHandler (withPaused true (GameHandler s)) s) with
    | Ret _ s' => Ret tt s'
    | Raise x s' => Raise x s'
    end.
Proof.
  intros Hp. cbn [drive input]. unfold bind at 1.
  rewrite (GameHandler_pause_running _ _ _ s Hp).
  unfold bind, ret. now destruct (GameHandler_pause q0 q1 q2 _) as [[] ?|].
Qed.

(** A callback that fires on a running game and completes its frame asks
    for exactly one successor. Two calls of [pause()] in a row on a running
    game also ask for one frame, without any callback having fired: a
    callback that was due before the first call is then joined by a second
    one. *)
Theorem pause_twice_requests now1 now2 p0 p1 p2 q0 q1 q2 s :
  paused (GameHandler s) = false ->
  (returned (input (Fire now1 now2) s) = true ->
   requests (final (input (Fire now1 now2) s)) = (requests s + 1)%nat)
  /\ (returned (drive [Pause p0 p1 p2; Pause q0 q1 q2] s) = true ->
      paused (GameHandler (final (drive [Pause p0 p1 p2; Pause q0 q1 q2] s)))
        = false
      /\ requests (final (drive [Pause p0 p1 p2; Pause q0 q1 q2] s))
         = (requests s + 1)%nat).
Proof.
  intros Hp. split.
  - unfold input, GameHandler_start, bind, ret.
    change (returned (frame now1 now2 s) = true ->
            requests (final (frame now1 now2 s)) = (requests s + 1)%nat).
    intros Hret. now rewrite frame_requests, Hret, Hp.
  - rewrite (drive_pause_pause p0 p1 p2 q0 q1 q2 s Hp).
    set (s1 := with_GameHandler (withPaused true (GameHandler s)) s).
    assert (Hp1 : paused (GameHandler s1) = true) by reflexivity.
    pose proof (resume_step q0 q1 q2 s1 Hp1) as Hres.
    destruct (GameHandler_pause q0 q1 q2 s1) as [[] s2|x s2];
      cbn [final returned] in *; [|discriminate].
    intros _. destruct (Hres eq_refl) as (H1 & _ & _ & H2).
    split; [exact H1|]. rewrite H2. reflexivity.
Qed.

(** A key event is dropped while [sceneIndex] is -1 (before the first frame
    and while the end scene is shown). After a completed step that started
    with index and current scene in agreement, a key event is passed to the
    key method of the current scene, and the default action is prevented
    only if that method reports the key as handled and the event object is
    not null. *)
Theorem key_reaches_current_scene property (method : KeyMethod)
    (event : option Z) (windowKeyCode : Z) now1 now2 s :
  coherent s ->
  returned (frame now1 now2 s) = true ->
  let s' := final (frame now1 now2 s) in
  let keyCode := match event with None => windowKeyCode | Some k => k end in
  (sceneIndex (game s') = -1 ->
   onkey property method event windowKeyCode s' = Ret false s')
  /\ (sceneIndex (game s') <> -1 ->
      exists c,
        currentScene (game s') = Some c
        /\ onkey property method event windowKeyCode s' =
             match method c keyCode (store s') with
             | Ret handled st =>
                 Ret (handled && match event with Some _ => true | None => false end)
                     (with_store st s')
             | Raise x st => Raise x (with_store st s')
             end).
Proof.
  intros Hco Hret. cbn zeta.
  pose proof (frame_coherent now1 now2 s Hco Hret) as Hco'.
  assert (Hset : currentScene (game (final (frame now1 now2 s))) <> None).
  { destruct (resolveScene s) as [cs s1|x s1] eqn:Hr.
    - destruct (frame_shape now1 now2 s cs s1 Hr)
        as (_ & _ & _ & _ & _ & _ & Hcur).
      destruct (Hcur Hret) as (-> & _). discriminate.
    - rewrite (frame_raise now1 now2 s x s1 Hr) in Hret. discriminate. }
  set (s' := final (frame now1 now2 s)) in *.
  unfold onkey, bind, gets, ret. split.
  - intros ->. reflexivity.
  - intros Hne. unfold coherent in Hco'.
    destruct (currentScene (game s')) as [c|]; [|easy].
    exists c. split; [reflexivity|].
    destruct (Z.eqb_spec (sceneIndex (game s')) (-1)); [easy|].
    now rewrite Hco'.
Qed.

End LoopProperties.

(** ** The preloader *)

Section PreloaderProperties.

Import Preloader.

Lemma loads_from (k : nat) : forall (p : Preloader.t) fn,
  callback p = Some fn ->
  let n := Z.of_nat (length (images p)) in
  returned (loads k p) = true
  /\ images (final (loads k p)) = images p
  /\ callback (final (loads k p)) = Some fn
  /\ counter (final (loads k p)) = counter p + Z.of_nat k
  /\ called (final (loads k p)) =
       called p ++ (if (counter p <? n) && (n <=? counter p + Z.of_nat k)
                    then [fn] else []).
Proof.
  induction k as [|k IH]; intros p fn Hcb n.
  - cbn. rewrite Z.add_0_r.
    destruct (Z.ltb_spec (counter p) n), (Z.leb_spec n (counter p));
      try lia; cbn; rewrite app_nil_r; auto.
  - cbn [loads]. unfold onload. rewrite Hcb. fold n.
    destruct (Z.eqb_spec (counter p + 1) n) as [Heq|Hne];
      match goal with |- context [loads k ?q] =>
        destruct (IH q fn eq_refl) as (Hr & Hi & Hc & Hn & Hl) end;
      cbn in Hi, Hn, Hl; fold n in Hl; rewrite Hr, Hi, Hc, Hn, Hl;
      (split; [reflexivity|]); (split; [reflexivity|]);
      (split; [reflexivity|]); (split; [lia|]);
      destruct (Z.ltb_spec (counter p + 1) n),
               (Z.leb_spec n (counter p + 1 + Z.of_nat k)),
               (Z.ltb_spec (counter p) n),
               (Z.leb_spec n (counter p + Z.of_nat (S k)));
      try lia; cbn; rewrite <- ?app_assoc, ?app_nil_r; reflexivity.
Qed.

(** After [onLoadCallback(fn)] on a preloader with [n] images, load events
    never throw, and [k] of them have called [fn] exactly once if
    [1 <= n <= k] and not at all otherwise: the callback runs at the [n]th
    load and never again, and with no image registered it never runs. *)
Theorem preloader_calls_once (p : Preloader.t) (fn : nat) (k : nat) :
  let n := length (images p) in
  let p' := final (loads k (onLoadCallback fn p)) in
  called (onLoadCallback fn p) = called p
  /\ returned (loads k (onLoadCallback fn p)) = true
  /\ called p' = called p ++ (if (1 <=? n)%nat && (n <=? k)%nat then [fn] else []).
Proof.
  cbn zeta. split; [reflexivity|].
  destruct (loads_from k (onLoadCallback fn p) fn eq_refl)
    as (Hr & _ & _ & _ & Hl).
  split; [exact Hr|]. rewrite Hl.
  cbn -[Z.ltb Z.leb Z.of_nat Nat.leb Z.add].
  f_equal.
  destruct (Nat.leb_spec 1 (length (images p))),
           (Nat.leb_spec (length (images p)) k),
           (Z.ltb_spec 0 (Z.of_nat (length (images p)))),
           (Z.leb_spec (Z.of_nat (length (images p))) (0 + Z.of_nat k));
    try lia; reflexivity.
Qed.

Lemma addImage_all (regs : list (nat * string)) : forall p,
  images (fold_left (fun q r => addImage (fst r) (snd r) q) regs p) =
    images p ++ map fst regs.
Proof.
  induction regs as [|r regs IH]; intros p; cbn.
  - now rewrite app_nil_r.
  - rewrite IH. cbn. now rewrite <- app_assoc.
Qed.

Lemma addImage_objects (regs : list (nat * string)) : forall p img,
  objects (fold_left (fun q r => addImage (fst r) (snd r) q) regs p) !! img =
    match lastUrl regs img with
    | Some u => Some {| url := Some u; src := src (object (objects p) img) |}
    | None => objects p !! img
    end.
Proof.
  induction regs as [|[i u] regs IH]; intros p img; cbn [fold_left lastUrl fst snd].
  - reflexivity.
  - rewrite IH. unfold object. cbn [addImage objects].
    destruct (Nat.eqb_spec i img) as [->|Hne].
    + rewrite lookup_insert_eq. cbn. now destruct (lastUrl regs img).
    + rewrite lookup_insert_ne by exact Hne. now destruct (lastUrl regs img).
Qed.

Lemma load_all (l : list nat) : forall (m : gmap nat Img) img,
  fold_left load l m !! img =
    if decide (img ∈ l)
    then Some {| url := url (object m img); src := url (object m img) |}
    else m !! img.
Proof.
  induction l as [|i l IH]; intros m img; cbn [fold_left].
  - destruct (decide (img ∈ [])) as [Hin|]; [|reflexivity].
    now apply not_elem_of_nil in Hin.
  - rewrite IH. unfold load, object.
    destruct (decide (i = img)) as [->|Hne].
    + rewrite lookup_insert_eq. cbn.
      destruct (decide (img ∈ l)), (decide (img ∈ img :: l)) as [|Hn];
        try reflexivity; exfalso; apply Hn; now left.
    + rewrite lookup_insert_ne by exact Hne.
      destruct (decide (img ∈ l)) as [Hin|Hnin],
               (decide (img ∈ i :: l)) as [Hin'|Hnin']; try reflexivity.
      * exfalso. apply Hnin'. now right.
      * exfalso. apply elem_of_cons in Hin' as [->|]; [now apply Hne|now apply Hnin].
Qed.

Lemma lastUrl_registered (regs : list (nat * string)) img u :
  lastUrl regs img = Some u -> img ∈ map fst regs.
Proof.
  revert u. induction regs as [|[i v] regs IH]; intros u; cbn; [discriminate|].
  destruct (lastUrl regs img) as [w|].
  - intros _. right. now apply (IH w).
  - destruct (Nat.eqb_spec i img) as [->|]; [|discriminate]. intros _. now left.
Qed.

(** Registering images on a new preloader and then calling
    [onLoadCallback] leaves one entry per registration, in the order of
    registration, and makes every registered image object load from the
    url of its last registration, whatever source it had before: an object
    registered twice appears twice in the list and loads from the second
    url. The other image objects are as they were. *)
Theorem preloader_sources (m : gmap nat Img) (regs : list (nat * string)) (fn : nat) :
  let p := onLoadCallback fn
             (fold_left (fun q r => addImage (fst r) (snd r) q) regs (Preloader.new m)) in
  images p = map fst regs
  /\ (forall img u,
        lastUrl regs img = Some u ->
        objects p !! img = Some {| url := Some u; src := Some u |})
  /\ (forall img, lastUrl regs img = None -> objects p !! img = m !! img).
Proof.
  cbn zeta. cbn [onLoadCallback images objects]. rewrite addImage_all.
  cbn [Preloader.new images app]. split; [reflexivity|]. split.
  - intros img u Hu. rewrite load_all.
    pose proof (lastUrl_registered regs img u Hu) as Hin.
    destruct (decide (img ∈ map fst regs)); [|easy].
    unfold object. rewrite addImage_objects, Hu. reflexivity.
  - intros img Hn. rewrite load_all.
    assert (Hobj : objects (fold_left (fun q r => addImage (fst r) (snd r) q)
                              regs (Preloader.new m)) !! img = m !! img).
    { rewrite addImage_objects, Hn. reflexivity. }
    destruct (decide (img ∈ map fst regs)) as [Hin|]; [|exact Hobj].
    exfalso. clear Hobj.
    induction regs as [|[i v] regs IH]; cbn in *.
    + now apply not_elem_of_nil in Hin.
    + destruct (lastUrl regs img); [discriminate|].
      destruct (Nat.eqb_spec i img) as [|Hne]; [discriminate|].
      apply elem_of_cons in Hin as [Heq|Hin]; [now apply Hne|now apply IH].
Qed.

End PreloaderProperties.

(** ** The text helpers *)

Section TextProperties.

Import Text.

Variable measureText : Style -> string -> Q.

(** Each of the four text helpers returns the context as it received it
    (drawing state and stack of saved states) and draws the text once,
    with the given font and with the given colour, or with the colour of
    the context when the colour is omitted or the empty string. *)
Theorem text_helpers_restore (field : Playfield) (g : Canvas Style)
    (txt f : string) (x y : Q) (col : option string) :
  let st := drawState g in
  drawText g txt f x y col =
    (g, [StrokeText txt x y
           {| strokeStyle := colourOr col (strokeStyle st);
              fillStyle := fillStyle st; font := f |}])
  /\ fillText g txt f x y col =
    (g, [FillText txt x y
           {| strokeStyle := strokeStyle st;
              fillStyle := colourOr col (fillStyle st); font := f |}])
  /\ fst (centerDrawText measureText field g txt f y col) = g
  /\ fst (centerFillText measureText field g txt f y col) = g.
Proof.
  cbn zeta. destruct g as [d stack].
  unfold drawText, fillText, centerDrawText, centerFillText,
    setStroke, setFill, setFont, colourOr, ctx_save, ctx_restore, ctx_set.
  destruct (truthy col); repeat split.
Qed.

(** After [GameHandler.init] on a canvas [canvasWidth] by [canvasHeight],
    the centred helpers place the text so that its middle is at half the
    canvas height: [init] stores the height of the canvas as the width of
    the play field. On a square canvas this is the horizontal centre. *)
Theorem centred_text_middle (canvasWidth canvasHeight : Q) (g : Canvas Style)
    (txt f : string) (y : Q) (col : option string) :
  let field := GameHandler_init canvasWidth canvasHeight in
  (exists x st,
      snd (centerDrawText measureText field g txt f y col) = [StrokeText txt x y st]
      /\ font st = f
      /\ (x + measureText st txt / 2 == canvasHeight / 2)%Q)
  /\ (exists x st,
      snd (centerFillText measureText field g txt f y col) = [FillText txt x y st]
      /\ font st = f
      /\ (x + measureText st txt / 2 == canvasHeight / 2)%Q).
Proof.
  cbn zeta. unfold centerDrawText, centerFillText. cbn [snd].
  split; eexists _, _; (split; [reflexivity|]); (split; [reflexivity|]);
    cbn; field.
Qed.

End TextProperties.

(** ** Actors *)

Section ActorProperties.

(** A new enemy is in play; a hit of any force reports it destroyed and
    leaves it expired, with position and vector untouched, and further
    hits keep it so. *)
Theorem enemy_hit (Vector : Type) (p v : Vector) (force force' : Q)
    (a : Actor.EnemyActor Vector) :
  let a' := snd (Actor.hit Vector force a) in
  Actor.enemyExpired Vector (Actor.newEnemy Vector p v) = false
  /\ fst (Actor.hit Vector force a) = true
  /\ Actor.enemyExpired Vector a' = true
  /\ Actor.enemyPosition Vector a' = Actor.enemyPosition Vector a
  /\ Actor.enemyVector Vector a' = Actor.enemyVector Vector a
  /\ Actor.hit Vector force' a' = Actor.hit Vector force a.
Proof. repeat split. Qed.

Lemma effect_result_le (val L : Q) (e1 e2 : Z) :
  (0 < L)%Q -> (0 <= val)%Q -> e1 <= e2 ->
  (val - val / L * inject_Z e2 <= val - val / L * inject_Z e1)%Q.
Proof.
  intros HL Hv He.
  assert (0 < / L)%Q by (apply Qinv_lt_0_compat; auto).
  assert (Hq : (inject_Z e1 <= inject_Z e2)%Q) by (rewrite <- Zle_Qle; exact He).
  unfold Qdiv. set (x := (/ L)%Q) in *.
  set (q1 := inject_Z e1) in *. set (q2 := inject_Z e2) in *.
  assert (0 <= val * x)%Q by nra. nra.
Qed.

(** [effectValue] never grows with time: at a later frame start the value
    is at most what it was at an earlier one. *)
Theorem effectValue_monotone (a : EffectActor) (h1 h2 : GameHandlerT) (val : Q) :
  (0 < lifespan a)%Q ->
  (0 <= val)%Q ->
  frameStart h1 <= frameStart h2 ->
  (effectValue a h2 val <= effectValue a h1 val)%Q.
Proof.
  intros HL Hv Ht.
  pose proof (effect_result_le val (lifespan a)
                (frameStart h1 - effectStart a) (frameStart h2 - effectStart a)
                HL Hv ltac:(lia)) as Hm.
  unfold effectValue.
  set (r1 := (val - val / lifespan a * inject_Z (frameStart h1 - effectStart a))%Q) in *.
  set (r2 := (val - val / lifespan a * inject_Z (frameStart h2 - effectStart a))%Q) in *.
  repeat match goal with
         | |- context [Qltb ?x ?y] =>
             let E := fresh "E" in
             destruct (Qltb x y) eqn:E;
               [apply Qltb_true in E|apply Qltb_false in E]
         end; cbv iota; lra.
Qed.

End ActorProperties.

(** ** Sprites on the cyclic play field *)

Section UtilProperties.

Import Util.

Local Open Scope Q_scope.

Ltac qcases :=
  repeat match goal with
         | |- context [Qltb ?a ?b] =>
             let E := fresh "E" in
             destruct (Qltb a b) eqn:E;
               [apply Qltb_true in E|apply Qltb_false in E]
         end.


(** The calls of [renderImage], one by one. *)
Lemma in_renderImage (field : Playfield) (nx ny ns x y s : Q) (c : DrawImage) :
  let W := width field in
  let H := height field in
  let draw p q := mkDraw nx ny ns ns p q s s in
  In c (renderImage field nx ny ns x y s) <->
    c = draw x y
    \/ (x < 0 /\ c = draw (W + x) y)
    \/ (y < 0 /\ c = draw x (H + y))
    \/ (x < 0 /\ y < 0 /\ c = draw (W + x) (H + y))
    \/ (W < x + s /\ c = draw (x - W) y)
    \/ (H < y + s /\ c = draw x (y - H))
    \/ (W < x + s /\ H < y + s /\ c = draw (x - W) (y - H)).
Proof.
  cbn zeta. unfold renderImage, when. cbn zeta.
  qcases; cbn; split; intros Hin;
    repeat match goal with
           | H : _ \/ _ |- _ => destruct H
           | H : _ /\ _ |- _ => destruct H
           | H : False |- _ => destruct H
           end;
    subst; try lra; auto 12.
Qed.


(** The two corners that are left out. When the sprite overlaps the left
    and the lower edge of the play field at once, no call draws it shifted
    to the upper right, and likewise for the right and the upper edge: the
    part of the sprite in the opposite corner is not painted. *)
Theorem renderImage_corners_missed (field : Playfield) (nx ny ns x y s : Q) :
  0 < width field -> 0 < height field ->
  forall c, In c (renderImage field nx ny ns x y s) ->
    ~ (dx c == width field + x /\ dy c == y - height field)
    /\ ~ (dx c == x - width field /\ dy c == height field + y).
Proof.
  intros HW HH c Hin. apply in_renderImage in Hin. cbn zeta in Hin.
  set (W := width field) in *. set (H := height field) in *.
  repeat match goal with
         | H : _ \/ _ |- _ => destruct H
         | H : _ /\ _ |- _ => destruct H
         end; subst c; cbn; split; intros (? & ?); lra.
Qed.

Lemma rf_ctx (w2 h2 r tx ty : Q) (g : Ctx) :
  rf w2 h2 r tx ty g =
    (g, [mkRotated (drawState g ++ [Translate tx ty; Rotate r]) (- w2) (- h2)]).
Proof. destruct g. unfold rf. cbn. now rewrite <- app_assoc. Qed.

Lemma centre_rotated (base : list Transform) (tx ty r p q : Q) :
  centre (mkRotated (base ++ [Translate tx ty; Rotate r]) p q) = Some (tx, ty).
Proof. unfold centre. cbn. now rewrite rev_app_distr. Qed.

(** The rotated sprite and the plain one agree on where to wrap.
    [renderImageRotated] returns the context as it received it, and for a
    square sprite of side [w] centred at ([x], [y]) it draws one copy per
    call that [renderImage] makes for the square with corner
    ([x - w/2], [y - w/2]), in the same order, each centred on the middle
    of that call's square, under the transform of the context followed by
    the translation and the rotation. *)
Theorem renderImageRotated_wraps (field : Playfield) (g : Ctx)
    (nx ny ns x y w r : Q) :
  let w2 := w * (1 # 2) in
  fst (renderImageRotated field g x y w w r) = g
  /\ Forall2
       (fun (c : RotatedDraw) (d : DrawImage) =>
          exists tx ty,
            centre c = Some (tx, ty)
            /\ transform c = drawState g ++ [Translate tx ty; Rotate r]
            /\ tx - w2 == dx d /\ ty - w2 == dy d
            /\ ox c = - w2 /\ oy c = - w2)
       (snd (renderImageRotated field g x y w w r))
       (renderImage field nx ny ns (x - w2) (y - w2) w).
Proof.
  cbn zeta. unfold renderImageRotated, renderImage, rfWhen, when. cbn zeta.
  rewrite rf_ctx.
  qcases; cbn [andb fst snd app]; rewrite ?rf_ctx; cbn [fst snd app];
    (split; [reflexivity|]);
    repeat (constructor;
            [eexists _, _; rewrite centre_rotated;
             split; [reflexivity|]; split; [reflexivity|];
             cbn; repeat split; ring|]);
    constructor.
Qed.

End UtilProperties.

(** ** Starting the game *)

Section StartProperties.

Context {U D : Type}.

Lemma GameHandler_start_some (m : Main U D) (now0 now1 now2 : Z) (s : State U D) :
  GameHandler_start (Some m) now0 now1 now2 s =
    frame now1 now2
      (with_GameHandler (withFrameStart now0 (GameHandler s)) (with_game m s)).
Proof. reflexivity. Qed.

(** [GameHandler.start(game)] with a new game: when its first frame
    completes, the game is installed with its scene list, the current
    scene is [scenes[sceneIndex]] with [sceneIndex] 0 or 1, the multiplier
    is the time since the start (0 counted as 1) over the ideal interval,
    one frame is counted, and the next frame is requested unless the game
    handler is paused. *)
Theorem start_new_game (scs : list (Scene U D)) (startSc endSc : option (Scene U D))
    (now0 now1 now2 : Z) (s : State U D) :
  let o := GameHandler_start (Some (newMain scs startSc endSc)) now0 now1 now2 s in
  returned o = true ->
  scenes (game (final o)) = scs
  /\ (sceneIndex (game (final o)) = 0 \/ sceneIndex (game (final o)) = 1)
  /\ (exists c, currentScene (game (final o)) = Some c
                /\ scenesAt (game (final o)) (sceneIndex (game (final o))) = Some c)
  /\ frameMultipler (GameHandler (final o))
     = (inject_Z (if now1 - now0 =? 0 then 1 else now1 - now0) / FPSMS)%Q
  /\ frameCount (GameHandler (final o)) = frameCount (GameHandler s) + 1
  /\ requests (final o)
     = (requests s + (if paused (GameHandler s) then 0 else 1))%nat.
Proof.
  cbn zeta. rewrite GameHandler_start_some.
  set (s0 := with_GameHandler (withFrameStart now0 (GameHandler s))
               (with_game (newMain scs startSc endSc) s)).
  intros Hret.
  destruct (frame_static now1 now2 s0) as (Hsc & _).
  assert (Hco : coherent s0) by exact I.
  pose proof (frame_coherent now1 now2 s0 Hco Hret) as Hco'.
  split; [exact Hsc|].
  assert (Hidx : sceneIndex (game (final (frame now1 now2 s0))) = 0
                 \/ sceneIndex (game (final (frame now1 now2 s0))) = 1).
  { rewrite frame_sceneIndex, resolveScene_eq.
    rewrite (selectScene_init s0 eq_refl).
    destruct (scenesAt (game s0) 0) as [c0|]; cbn [callInitScene bind modify ret];
      [|now left].
    change (bind (modify (entered c0)) (fun _ => ret c0) (withIndex 0 s0))
      with (Ret (S:=State U D) c0 (entered c0 (withIndex 0 s0))).
    pose proof (advanceScene_index_any c0 (entered c0 (withIndex 0 s0))) as Ha.
    cbn zeta in Ha. cbn [final].
    destruct Ha as [->| ->]; [now left|]. cbn.
    destruct (_ <? _); auto. }
  split; [exact Hidx|]. split.
  - unfold coherent in Hco'.
    destruct (currentScene (game (final (frame now1 now2 s0)))) as [c|] eqn:Hc.
    + exists c. split; [reflexivity|].
      destruct (Z.eqb_spec (sceneIndex (game (final (frame now1 now2 s0)))) (-1));
        [lia|exact Hco'].
    + exfalso.
      destruct (resolveScene s0) as [cs s1|x s1] eqn:Hr.
      * destruct (frame_shape now1 now2 s0 cs s1 Hr)
          as (_ & _ & _ & _ & _ & _ & Hcur).
        destruct (Hcur Hret) as (Hcs & _). congruence.
      * rewrite (frame_raise now1 now2 s0 x s1 Hr) in Hret. discriminate.
  - rewrite (frame_GameHandler now1 now2 s0 Hret), frame_requests, Hret.
    cbn. repeat split. unfold requests. cbn.
    now destruct (paused (GameHandler s)).
Qed.

End StartProperties.

(** ** More runs of the small game *)

Module MoreRuns.

Import Demo DemoMore.

Lemma frameCount_counts_witness :
  frameCount (GameHandler (final (run [(0, 1); (16, 17); (33, 34)] (start gated 0))))
    = 3.
Proof.
  exact (proj2 (frameCount_counts 0 0 [(0, 1); (16, 17); (33, 34)] (start gated 0))
               eq_refl).
Defined.

Lemma frameMultipler_entry_to_entry_witness :
  frameMultipler
    (GameHandler (final (frame 30 31 (final (frame 10 12 (start gated 0))))))
    = (inject_Z 20 / FPSMS)%Q.
Proof.
  exact (proj2 (frameMultipler_entry_to_entry 10 12 30 31 (start gated 0)
                  eq_refl eq_refl)).
Defined.

Lemma maxfps_every_16th_witness :
  maxfps (GameHandler (final (frame 16 17 (startAt gated 15 0 false)))) = 62.
Proof.
  exact (maxfps_every_16th 16 17 (startAt gated 15 0 false) eq_refl).
Defined.

Lemma sceneIndex_in_range_witness :
  -1 <= sceneIndex (game (final (frame 10 12 (start cycling 0)))) < 3.
Proof.
  apply (sceneIndex_in_range 10 12 (start cycling 0)).
  - cbn. lia.
  - cbn. lia.
Defined.

Lemma coherent_kept_witness :
  coherent (final (frame 10 12 (start twoScenes 0))).
Proof.
  apply (coherent_kept 10 12 (start twoScenes 0)).
  - exact I.
  - reflexivity.
Defined.

Lemma currentScene_set_witness :
  currentScene (game (final (frame 10 12 (start twoScenes 0)))) <> None.
Proof.
  apply (proj1 (currentScene_set 10 12 (start twoScenes 0))). reflexivity.
Defined.

Lemma onInitScene_frame_rule_witness :
  intervals (onInitScene (scene 0 (Some (banner 7 2)) false) store0) !! 7%nat
    = Some {| framecounter := 0; complete := false |}.
Proof.
  exact (proj1 (proj2 (onInitScene_frame_rule
                         (scene 0 (Some (banner 7 2)) false) store0)
                      (banner 7 2) eq_refl)).
Defined.

Lemma canvas_restored_witness :
  ctx (store (final (frame 10 12 (start twoScenes 0))))
    = ctx (store (start twoScenes 0)).
Proof.
  apply (canvas_restored 10 12 (start twoScenes 0) (scene 1 None false)
           (entered (scene 1 None false)
              (withIndex 1 (entered (scene 0 None true)
                              (withIndex 0 (start twoScenes 0)))))).
  - reflexivity.
  - intros st. reflexivity.
  - intros st. reflexivity.
  - intros st. reflexivity.
  - intros i Hi. discriminate Hi.
  - reflexivity.
Defined.

Lemma pause_stops_loop_witness :
  paused (GameHandler (final (GameHandler_pause 5 6 7 (start gated 0)))) = true
  /\ requests (final (input (Fire 16 17)
                        (final (GameHandler_pause 5 6 7 (start gated 0))))) = 0%nat.
Proof.
  destruct (pause_stops_loop 5 6 7 (start gated 0) eq_refl)
    as (_ & Hg & _ & _ & _ & Hreq).
  split; [now rewrite Hg|]. exact (Hreq 16 17).
Defined.

Lemma resume_excludes_pause_witness :
  frameMultipler
    (GameHandler (final (GameHandler_pause 5000 5003 5004 (startAt gated 7 100 true))))
    = (inject_Z 3 / FPSMS)%Q.
Proof.
  exact (proj1 (proj2 (resume_excludes_pause 5000 5003 5004
                         (startAt gated 7 100 true) eq_refl eq_refl))).
Defined.

Lemma pause_twice_requests_witness :
  requests (final (drive [Pause 1 2 3; Pause 4 5 6] (start gated 0))) = 1%nat.
Proof.
  exact (proj2 (proj2 (pause_twice_requests 0 0 1 2 3 4 5 6 (start gated 0) eq_refl)
                      eq_refl)).
Defined.

Lemma key_reaches_current_scene_witness :
  onkeydown spaceOnly (Some 32) 0 (final (frame 10 12 (start twoScenes 0)))
    = Ret true (final (frame 10 12 (start twoScenes 0))).
Proof.
  destruct (key_reaches_current_scene "onKeyDownHandler" spaceOnly (Some 32) 0
              10 12 (start twoScenes 0) I eq_refl) as (_ & Hkey).
  unfold onkeydown. destruct (Hkey ltac:(discriminate)) as (c & _ & ->).
  reflexivity.
Defined.

Lemma start_new_game_witness :
  scenes (game (final (GameHandler_start
                         (Some (newMain [scene 0 None false] None None))
                         0 3 4 (start noScenes 0))))
    = [scene 0 None false].
Proof.
  exact (proj1 (start_new_game [scene 0 None false] None None 0 3 4
                  (start noScenes 0) eq_refl)).
Defined.


Lemma renderImage_corners_missed_witness :
  ~ (Util.dx (Util.mkDraw 0 0 32 32 (-10) 460 32 32) == width field + -10
     /\ Util.dy (Util.mkDraw 0 0 32 32 (-10) 460 32 32) == 460 - height field)%Q.
Proof.
  apply (renderImage_corners_missed field 0 0 32 (-10) 460 32).
  - reflexivity.
  - reflexivity.
  - left. reflexivity.
Defined.

Lemma effectValue_monotone_witness :
  (effectValue spark (handlerAt 60) 8 <= effectValue spark (handlerAt 25) 8)%Q.
Proof.
  apply (effectValue_monotone spark (handlerAt 25) (handlerAt 60) 8).
  - reflexivity.
  - vm_compute. discriminate.
  - vm_compute. discriminate.
Defined.

End MoreRuns.
